(** * Hom spaces of quiver representations (sage/quivers/homspace.py)

    A shallow embedding of [QuiverHomSpaceFactory] and
    [QuiverHomSpace_generic]: the dimension bookkeeping ([varstart], [eqs]),
    the loop that fills the coefficient matrix, the kernel taken of it, the
    membership test, the element constructor and the factory cache. *)

From Stdlib Require Import ZArith Lia Bool Ring.
From stdpp Require Import gmap strings list fin_maps pretty.

Local Open Scope string_scope.
Local Open Scope list_scope.
Local Open Scope nat_scope.

(** ** Python exceptions and results *)

Inductive PyError : Type :=
| ValueError (msg : string)
| IndexError
| AttributeError (attr : string)
| TypeError.

Inductive Result (A : Type) : Type :=
| Ok (a : A)
| Raise (e : PyError).
Arguments Ok {A} a.
Arguments Raise {A} e.

Definition bind {A B} (m : Result A) (f : A -> Result B) : Result B :=
  match m with
  | Ok a => f a
  | Raise e => Raise e
  end.

Notation "x <- m ;; k" := (bind m (fun x => k))
  (at level 100, m at next level, right associativity).

(** A [for] loop whose body may raise: the state is threaded from left to
    right and the first exception ends the loop. *)
Fixpoint for_each {S A} (body : S -> A -> Result S) (xs : list A) (s : S)
  : Result S :=
  match xs with
  | [] => Ok s
  | x :: xs' => s' <- body s x ;; for_each body xs' s'
  end.

(** [range(a, b)] *)
Definition range (a b : nat) : list nat := seq a (b - a).

Definition raises {A} (m : Result A) : bool :=
  match m with Ok _ => false | Raise _ => true end.

Definition is_ValueError {A} (m : Result A) : bool :=
  match m with Raise (ValueError _) => true | _ => false end.

Definition is_TypeError {A} (m : Result A) : bool :=
  match m with Raise TypeError => true | _ => false end.

(** ** Python lists used as arrays *)

(** [l[i]] *)
Definition getitem {A} (l : list A) (i : nat) : Result A :=
  match l !! i with
  | Some x => Ok x
  | None => Raise IndexError
  end.

(** [l[i] = x] *)
Definition setitem {A} (l : list A) (i : nat) (x : A) : Result (list A) :=
  if decide (i < length l) then Ok (<[i:=x]> l) else Raise IndexError.

(** [l.index(v)]: position of the first occurrence, [ValueError] if none. *)
Fixpoint index (v : nat) (l : list nat) : Result nat :=
  match l with
  | [] => Raise (ValueError "x is not in list")
  | x :: l' => if decide (x = v) then Ok 0 else n <- index v l' ;; Ok (S n)
  end.

(** ** The base ring

    The entries of all matrices live in the carrier of one commutative ring
    with a decidable equality.  The ring *object* a representation points to
    is a [RingRef]: what [is] and [==] look at. *)

Record RingOps : Type := {
  carrier :> Type;
  r0 : carrier;
  r1 : carrier;
  radd : carrier -> carrier -> carrier;
  rmul : carrier -> carrier -> carrier;
  ropp : carrier -> carrier;
  reqb : carrier -> carrier -> bool
}.

Definition rsub (K : RingOps) (x y : K) : K := radd K x (ropp K y).

Record RingRef : Type := { ring_id : nat; ring_name : string }.

(** [a is b] compares addresses, [a == b] compares values. *)
Definition ring_is (a b : RingRef) : bool := Nat.eqb (ring_id a) (ring_id b).
Definition ring_eq (a b : RingRef) : bool :=
  bool_decide (ring_name a = ring_name b).

(** ** Quivers *)

Abbreviation Vertex := nat (only parsing).
(** An edge is the triple [(e[0], e[1], e[2])]: source, target, label. *)
Definition Edge := (Vertex * Vertex * string)%type.
Definition e0 (e : Edge) : Vertex := e.1.1.
Definition e1 (e : Edge) : Vertex := e.1.2.

Record Quiver : Type := {
  quiver_id : nat;
  vertices : list Vertex;
  edges : list Edge
}.

Definition quiver_is (a b : Quiver) : bool :=
  Nat.eqb (quiver_id a) (quiver_id b).
Definition quiver_eq (a b : Quiver) : bool :=
  bool_decide (vertices a = vertices b /\ edges a = edges b).

(** ** Matrices

    A matrix knows its shape; [entry] is read only inside the shape.  A write
    outside the shape raises [IndexError], as Sage's does. *)

Record Matrix (K : RingOps) : Type := {
  nrows : nat;
  ncols : nat;
  entry : nat -> nat -> K
}.
Arguments nrows {K} _.
Arguments ncols {K} _.
Arguments entry {K} _ _ _.

(** [Matrix(R, m, n)]: the zero matrix. *)
Definition Matrix_zero (K : RingOps) (m n : nat) : Matrix K :=
  {| nrows := m; ncols := n; entry := fun _ _ => r0 K |}.

(** [Matrix(n, n, 1)]: the scalar matrix of [1]. *)
Definition Matrix_one (K : RingOps) (n : nat) : Matrix K :=
  {| nrows := n; ncols := n;
     entry := fun i j => if Nat.eqb i j then r1 K else r0 K |}.

(** The matrix [M] with [x] at [(r, c)]. *)
Definition mat_put {K} (M : Matrix K) (r c : nat) (x : K) : Matrix K :=
  {| nrows := nrows M; ncols := ncols M;
     entry := fun r' c' =>
       if Nat.eqb r' r && Nat.eqb c' c then x else entry M r' c' |}.

(** [M[r, c] = x] *)
Definition mat_set {K} (M : Matrix K) (r c : nat) (x : K) : Result (Matrix K) :=
  if decide (r < nrows M /\ c < ncols M) then Ok (mat_put M r c x)
  else Raise IndexError.

(** ** Representations

    The attributes of a [QuiverRep] the hom space reads: [_quiver],
    [_base_ring], the dimension of [_spaces[v]], the matrix of [_maps[e]] and
    [_factory_data].  The factory of representations sets [_factory_data] on
    every object it makes, to a tuple whose entry 2 is the key of the object;
    on a representation that no factory made the attribute is [None]. *)

Abbreviation RepKey := nat (only parsing).

Record QuiverRep (K : RingOps) : Type := {
  rep_id : nat;
  rep_quiver : Quiver;
  rep_base_ring : RingRef;
  rep_spaces : Vertex -> nat;
  rep_maps : Edge -> Matrix K;
  (** entry 2 of the tuple [_factory_data], or [None] *)
  _factory_data : option RepKey
}.
Arguments rep_id {K} _.
Arguments rep_quiver {K} _.
Arguments rep_base_ring {K} _.
Arguments rep_spaces {K} _ _.
Arguments rep_maps {K} _ _.
Arguments _factory_data {K} _.

(** [M._factory_data[2]]: subscripting [None] raises a [TypeError]. *)
Definition factory_data_2 {K} (M : QuiverRep K) : Result RepKey :=
  match _factory_data M with
  | Some key => Ok key
  | None => Raise TypeError
  end.

(** [_factory_data] is set: the factory of representations made [M]. *)
Definition made_by_factory {K} (M : QuiverRep K) : bool :=
  match _factory_data M with
  | Some _ => true
  | None => false
  end.

(** The key of a representation that the factory made.  It is used where
    [create_key] has returned, so that [_factory_data] is set. *)
Definition rep_factory_key {K} (M : QuiverRep K) : RepKey :=
  match _factory_data M with
  | Some key => key
  | None => 0
  end.

Definition rep_is {K} (a b : QuiverRep K) : bool := Nat.eqb (rep_id a) (rep_id b).

(** [M._spaces[v].dimension()] *)
Definition dim {K} (M : QuiverRep K) (v : Vertex) : nat := rep_spaces M v.

(** ** The space returned by [coef_mat.kernel()] *)

(** [sum(f(k) for k in range(n))] in the base ring. *)
Fixpoint rsum (K : RingOps) (n : nat) (f : nat -> K) : K :=
  match n with
  | O => r0 K
  | S n' => radd K (rsum K n' f) (f n')
  end.

(** [v[r]]; the source reads inside the length of [v] only, where the
    default is never returned. *)
Definition vget {K : RingOps} (v : list K) (r : nat) : K := nth r v (r0 K).

(** Entry [c] of the row vector [v * M]. *)
Definition dot {K : RingOps} (v : list K) (M : Matrix K) (c : nat) : K :=
  rsum K (nrows M) (fun r => rmul K (vget v r) (entry M r c)).

(** Modelled from the spec: the kernel computation of the linear-algebra
    library, which homspace.py only calls.  [M.kernel()] is the left kernel,
    the subspace of the ambient space [k^(M.nrows())] of the row vectors [v]
    with [v * M = 0]; the space is kept by its defining matrix. *)
Record Space (K : RingOps) : Type := { space_matrix : Matrix K }.
Arguments space_matrix {K} _.

Definition kernel {K} (M : Matrix K) : Space K := {| space_matrix := M |}.

(** [v in S] *)
Definition vec_in_space {K : RingOps} (v : list K) (S : Space K) : bool :=
  Nat.eqb (length v) (nrows (space_matrix S))
  && forallb (fun c => reqb K (dot v (space_matrix S) c) (r0 K))
             (range 0 (ncols (space_matrix S))).

(** ** [QuiverHomSpace_generic] *)

Record HomSpace (K : RingOps) : Type := {
  self_id : nat;
  _quiver : Quiver;
  _domain : QuiverRep K;
  _codomain : QuiverRep K;
  _space : Space K;
  _base : RingRef;
  (** whether [__init__] bound the attribute [identity] *)
  identity_bound : bool
}.
Arguments self_id {K} _.
Arguments _quiver {K} _.
Arguments _domain {K} _.
Arguments _codomain {K} _.
Arguments _space {K} _.
Arguments _base {K} _.
Arguments identity_bound {K} _.

(** The first loop: [varstart[verts.index(v) + 1] = dim * dim]. *)
Definition varstart_dims {K} (domain codomain : QuiverRep K)
    (verts : list Vertex) (varstart : list nat) : Result (list nat) :=
  for_each (fun varstart v =>
              i <- index v verts ;;
              setitem varstart (i + 1) (dim domain v * dim codomain v))
           verts varstart.

(** The second loop: [eqs += dim * dim] over the edges. *)
Definition count_eqs {K} (domain codomain : QuiverRep K) (es : list Edge)
    (eqs : nat) : nat :=
  fold_left (fun eqs e => eqs + dim domain (e0 e) * dim codomain (e1 e)) es eqs.

(** The cascading sum: [varstart[i] += varstart[i-1]] for [i] from 2. *)
Definition varstart_cascade (varstart : list nat) : Result (list nat) :=
  for_each (fun varstart i =>
              a <- getitem varstart i ;;
              b <- getitem varstart (i - 1) ;;
              setitem varstart i (a + b))
           (range 2 (length varstart)) varstart.

(** The body of the loops over [i] and [j]: the two loops over [k] write
    column [eqn], then [eqn += 1]. *)
Definition fill_equation {K : RingOps} (verts : list Vertex)
    (varstart : list nat) (X Y : Matrix K) (e : Edge) (i j : nat)
    (st : Matrix K * nat) : Result (Matrix K * nat) :=
  let eqn := st.2 in
  coef_mat <- for_each (fun coef_mat k =>
                s <- index (e0 e) verts ;;
                vs <- getitem varstart s ;;
                mat_set coef_mat (vs + i * nrows Y + k) eqn (entry Y k j))
              (range 0 (nrows Y)) st.1 ;;
  coef_mat <- for_each (fun coef_mat k =>
                t <- index (e1 e) verts ;;
                vt <- getitem varstart t ;;
                mat_set coef_mat (vt + k * ncols Y + j) eqn
                        (ropp K (entry X i k)))
              (range 0 (ncols X)) coef_mat ;;
  Ok (coef_mat, eqn + 1).

(** The body of the loop over the edges. *)
Definition fill_edge {K : RingOps} (domain codomain : QuiverRep K)
    (verts : list Vertex) (varstart : list nat)
    (st : Matrix K * nat) (e : Edge) : Result (Matrix K * nat) :=
  let X := rep_maps domain e in
  let Y := rep_maps codomain e in
  for_each (fun st i =>
              for_each (fun st j => fill_equation verts varstart X Y e i j st)
                       (range 0 (ncols Y)) st)
           (range 0 (nrows X)) st.

(** Everything [__init__] computes before the kernel is taken: the
    coefficient matrix and the final value of [eqn]. *)
Definition coefficient_matrix {K : RingOps} (domain codomain : QuiverRep K)
  : Result (Matrix K * nat) :=
  let verts := vertices (rep_quiver domain) in
  let varstart := replicate (length verts + 1) 0 in
  varstart <- varstart_dims domain codomain verts varstart ;;
  let eqs := count_eqs domain codomain (edges (rep_quiver domain)) 0 in
  varstart <- varstart_cascade varstart ;;
  rows <- getitem varstart (length varstart - 1) ;;
  let coef_mat := Matrix_zero K rows eqs in
  for_each (fill_edge domain codomain verts varstart)
           (edges (rep_quiver domain)) (coef_mat, 0).

(** [QuiverHomSpace_generic.__init__(self, domain, codomain)] *)
Definition __init__ {K : RingOps} (self : nat) (domain codomain : QuiverRep K)
  : Result (HomSpace K) :=
  if negb (quiver_eq (rep_quiver domain) (rep_quiver codomain)) then
    Raise (ValueError "Representations are not over the same quiver.")
  else if negb (ring_eq (rep_base_ring codomain) (rep_base_ring domain)) then
    Raise (ValueError "Representations are not over the same base ring.")
  else
    st <- coefficient_matrix domain codomain ;;
    Ok {| self_id := self;
          _quiver := rep_quiver domain;
          _domain := domain;
          _codomain := codomain;
          _space := kernel st.1;
          _base := rep_base_ring codomain;
          identity_bound := rep_is domain codomain |}.

(** ** Homomorphisms of representations

    [QuiverRepHom] lives in sage/quivers/morphism.py, which homspace.py only
    calls.  What the hom space reads of a homomorphism is its [_quiver],
    [_domain], [_codomain] and [_vector]. *)

Record Hom (K : RingOps) : Type := {
  hom_quiver : Quiver;
  hom_domain : QuiverRep K;
  hom_codomain : QuiverRep K;
  _vector : list K
}.
Arguments hom_quiver {K} _.
Arguments hom_domain {K} _.
Arguments hom_codomain {K} _.
Arguments _vector {K} _.

(** The [data] argument of a homomorphism: [None], an integer, a dictionary
    from vertices to matrices, or a vector of the ambient space. *)
Inductive Data (K : RingOps) : Type :=
| DNone
| DInt (z : Z)
| DDict (maps : gmap Vertex (Matrix K))
| DVector (v : list K).
Arguments DNone {K}.
Arguments DInt {K} z.
Arguments DDict {K} maps.
Arguments DVector {K} v.

(** The number of the variable at (0, 0) of the matrix at vertex [v]: the
    variables are numbered from 0, first by vertex, then by row, then by
    column (the comment at the head of [__init__]). *)
Fixpoint var_offset {K} (domain codomain : QuiverRep K) (verts : list Vertex)
    (v : Vertex) : nat :=
  match verts with
  | [] => 0
  | x :: verts' =>
      if decide (x = v) then 0
      else dim domain x * dim codomain x + var_offset domain codomain verts' v
  end.

Definition total_dim {K} (domain codomain : QuiverRep K) (verts : list Vertex)
  : nat :=
  sum_list (map (fun v => dim domain v * dim codomain v) verts).

(** The matrix a vector assigns to vertex [v]. *)
Definition get_matrix {K : RingOps} (domain codomain : QuiverRep K)
    (vec : list K) (v : Vertex) : Matrix K :=
  let verts := vertices (rep_quiver domain) in
  {| nrows := dim domain v; ncols := dim codomain v;
     entry := fun i k =>
       vget vec (var_offset domain codomain verts v + i * dim codomain v + k) |}.

(** Entry (i, j) of the product [A * B]. *)
Definition mat_mul_entry {K : RingOps} (A B : Matrix K) (i j : nat) : K :=
  rsum K (ncols A) (fun k => rmul K (entry A i k) (entry B k j)).

(** The diagram of edge [e] commutes: [A * Y = X * B] entry by entry. *)
Definition edge_commutes {K : RingOps} (domain codomain : QuiverRep K)
    (vec : list K) (e : Edge) : bool :=
  let A := get_matrix domain codomain vec (e0 e) in
  let B := get_matrix domain codomain vec (e1 e) in
  let X := rep_maps domain e in
  let Y := rep_maps codomain e in
  forallb (fun i =>
    forallb (fun j => reqb K (mat_mul_entry A Y i j) (mat_mul_entry X B i j))
            (range 0 (ncols Y)))
    (range 0 (nrows X)).

Definition commutes {K : RingOps} (domain codomain : QuiverRep K)
    (vec : list K) : bool :=
  forallb (edge_commutes domain codomain vec) (edges (rep_quiver domain)).

(** The entries of a matrix, row by row. *)
Definition flatten {K : RingOps} (M : Matrix K) : list K :=
  flat_map (fun i => map (fun j => entry M i j) (range 0 (ncols M)))
           (range 0 (nrows M)).

(** The vector of a dictionary of vertex maps: a vertex without an entry gets
    the zero map, a key that is no vertex is ignored. *)
Fixpoint dict_vector {K : RingOps} (domain codomain : QuiverRep K)
    (maps : gmap Vertex (Matrix K)) (verts : list Vertex) : Result (list K) :=
  match verts with
  | [] => Ok []
  | v :: verts' =>
      rest <- dict_vector domain codomain maps verts' ;;
      match maps !! v with
      | None => Ok (replicate (dim domain v * dim codomain v) (r0 K) ++ rest)
      | Some m =>
          if decide (nrows m = dim domain v /\ ncols m = dim codomain v)
          then Ok (flatten m ++ rest)
          else Raise (ValueError "matrix of the wrong shape")
      end
  end.

(** Modelled from the spec: the constructor [QuiverRepHom(domain, codomain,
    data)] of sage/quivers/morphism.py, which is missing here, after the
    docstring of [_element_constructor_]: a dictionary assigns a matrix to
    each vertex, unspecified vertices get the zero map, keys that are no
    vertices are ignored, a vector of the ambient space is taken as it is, and
    an error is raised if the maps do not commute with the edge maps.  Data
    of another kind, or of the wrong shape, is an error too. *)
Definition QuiverRepHom {K : RingOps} (domain codomain : QuiverRep K)
    (data : Data K) : Result (Hom K) :=
  let verts := vertices (rep_quiver domain) in
  vec <- match data with
         | DDict maps => dict_vector domain codomain maps verts
         | DVector v =>
             if decide (length v = total_dim domain codomain verts) then Ok v
             else Raise (ValueError "vector of the wrong length")
         | DNone | DInt _ => Raise (ValueError "no homomorphism from this data")
         end ;;
  if commutes domain codomain vec then
    Ok {| hom_quiver := rep_quiver domain; hom_domain := domain;
          hom_codomain := codomain; _vector := vec |}
  else Raise (ValueError "the maps do not commute with the edge maps").

(** [data == 0] *)
Definition data_eq_0 {K : RingOps} (data : Data K) : bool :=
  match data with
  | DInt z => Z.eqb z 0
  | DVector v => forallb (fun x => reqb K x (r0 K)) v
  | DNone | DDict _ => false
  end.

Definition data_is_None {K} (data : Data K) : bool :=
  match data with DNone => true | _ => false end.

(** [QuiverHomSpace_generic._element_constructor_(self, data=None)] *)
Definition _element_constructor_ {K : RingOps} (self : HomSpace K)
    (data : Data K) : Result (Hom K) :=
  let data := if data_is_None data || data_eq_0 data then DDict ∅ else data in
  QuiverRepHom (_domain self) (_codomain self) data.

(** [H()]: the call with the default argument [data=None]. *)
Definition call_no_argument {K : RingOps} (self : HomSpace K) : Result (Hom K) :=
  _element_constructor_ self DNone.

(** Two matrices of the same shape with the same entries. *)
Definition matrix_eq {K : RingOps} (A B : Matrix K) : bool :=
  Nat.eqb (nrows A) (nrows B) && Nat.eqb (ncols A) (ncols B)
  && forallb (fun i =>
       forallb (fun j => reqb K (entry A i j) (entry B i j))
               (range 0 (ncols A)))
       (range 0 (nrows A)).

(** Two representations with equal data: the same quiver, base ring,
    dimensions and maps.  They may well be two objects; the code never
    compares representations this way. *)
Definition rep_eq {K : RingOps} (a b : QuiverRep K) : bool :=
  quiver_eq (rep_quiver a) (rep_quiver b)
  && ring_eq (rep_base_ring a) (rep_base_ring b)
  && forallb (fun v => Nat.eqb (dim a v) (dim b v)) (vertices (rep_quiver a))
  && forallb (fun e => matrix_eq (rep_maps a e) (rep_maps b e))
             (edges (rep_quiver a)).

(** Modelled from the spec: the comparison [a != b] of two representations,
    a method of the class of the representations, which is missing here.  The
    spec says that the objects are constructed once and cached by identity:
    the class has no comparison by data, and two representations are equal
    when they are one object. *)
Definition rep_ne {K} (a b : QuiverRep K) : bool := negb (rep_is a b).

(** What [in] can be asked of: a homomorphism or any other object. *)
Inductive PyObject (K : RingOps) : Type :=
| ObjHom (h : Hom K)
| ObjData (d : Data K)
| ObjRep (r : QuiverRep K).
Arguments ObjHom {K} h.
Arguments ObjData {K} d.
Arguments ObjRep {K} r.

(** [QuiverHomSpace_generic.__contains__(self, map)] *)
Definition __contains__ {K : RingOps} (self : HomSpace K) (map : PyObject K)
  : bool :=
  match map with
  | ObjHom map =>
      if negb (quiver_eq (_quiver self) (hom_quiver map))
         || rep_ne (_domain self) (hom_domain map)
         || rep_ne (_codomain self) (hom_codomain map)
      then false
      else vec_in_space (_vector map) (_space self)
  | _ => false
  end.

(** [QuiverHomSpace_generic._identity(self)] *)
Definition _identity {K : RingOps} (self : HomSpace K) : Result (Hom K) :=
  let maps : gmap Vertex (Matrix K) :=
    list_to_map (map (fun v => (v, Matrix_one K (dim (_domain self) v)))
                     (vertices (_quiver self))) in
  QuiverRepHom (_domain self) (_codomain self) (DDict maps).

(** [self.identity]: the attribute exists only if [__init__] bound it. *)
Definition identity {K : RingOps} (self : HomSpace K)
  : Result (unit -> Result (Hom K)) :=
  if identity_bound self then Ok (fun _ => _identity self)
  else Raise (AttributeError "identity").

(** The access functions. *)
Definition base_ring {K} (self : HomSpace K) : RingRef := _base self.
Definition quiver {K} (self : HomSpace K) : Quiver := _quiver self.
Definition domain {K} (self : HomSpace K) : QuiverRep K := _domain self.
Definition codomain {K} (self : HomSpace K) : QuiverRep K := _codomain self.

(** [QuiverHomSpace_generic.hom(self, maps={})] *)
Definition hom {K : RingOps} (self : HomSpace K)
    (maps : gmap Vertex (Matrix K)) : Result (Hom K) :=
  QuiverRepHom (_domain self) (_codomain self) (DDict maps).

(** ** Generators and coordinates *)

(** A list comprehension whose element expression may raise. *)
Fixpoint comprehension {A B} (f : A -> Result B) (xs : list A)
  : Result (list B) :=
  match xs with
  | [] => Ok []
  | x :: xs' => y <- f x ;; ys <- comprehension f xs' ;; Ok (y :: ys)
  end.

(** Modelled from the spec: the methods of the free module that the
    linear-algebra library returns as a kernel, which are missing here.
    [S.gens()] is the list of the basis vectors of the space,
    [S.dimension()] their number, and [S.coordinates(v)] the list of the
    coefficients of [v] in terms of these generators.  The library is a
    parameter; [is_basis] and [coordinates_correct] below say what is
    expected of it. *)
Record LinAlg (K : RingOps) : Type := {
  space_gens : Space K -> list (list K);
  space_coordinates : Space K -> list K -> list K
}.
Arguments space_gens {K} _ _.
Arguments space_coordinates {K} _ _ _.

(** [QuiverHomSpace_generic.dimension(self)] *)
Definition dimension {K} (L : LinAlg K) (self : HomSpace K) : nat :=
  length (space_gens L (_space self)).

(** [QuiverHomSpace_generic.gens(self)] *)
Definition gens {K : RingOps} (L : LinAlg K) (self : HomSpace K)
  : Result (list (Hom K)) :=
  comprehension (fun f => QuiverRepHom (_domain self) (_codomain self) (DVector f))
                (space_gens L (_space self)).

(** [QuiverHomSpace_generic.coordinates(self, hom)] *)
Definition coordinates {K} (L : LinAlg K) (self : HomSpace K) (hom : Hom K)
  : list K :=
  space_coordinates L (_space self) (_vector hom).

(** Entry [r] of the linear combination of the vectors [gs] with the
    coefficients [cs]. *)
Definition lincomb_entry {K : RingOps} (cs : list K) (gs : list (list K))
    (r : nat) : K :=
  rsum K (length gs) (fun i => rmul K (vget cs i) (vget (nth i gs []) r)).

(** [v] is the linear combination of [gs] with the coefficients [cs]. *)
Definition is_lincomb {K : RingOps} (S : Space K) (cs : list K)
    (gs : list (list K)) (v : list K) : Prop :=
  length cs = length gs /\
  forall r, r < nrows (space_matrix S) -> vget v r = lincomb_entry cs gs r.

(** The generators of [S] are vectors of [S], span it and are linearly
    independent. *)
Definition is_basis {K : RingOps} (L : LinAlg K) (S : Space K) : Prop :=
  (forall g, g ∈ space_gens L S -> vec_in_space g S = true) /\
  (forall v, vec_in_space v S = true ->
     exists cs, is_lincomb S cs (space_gens L S) v) /\
  (forall cs, is_lincomb S cs (space_gens L S)
                (replicate (nrows (space_matrix S)) (r0 K)) ->
     forall i, i < length cs -> vget cs i = r0 K).

(** The coordinates of a vector of [S] are coefficients of it. *)
Definition coordinates_correct {K : RingOps} (L : LinAlg K) (S : Space K)
  : Prop :=
  forall v, vec_in_space v S = true ->
    is_lincomb S (space_coordinates L S v) (space_gens L S) v.

(** The list with [1] at position [i] and [0] at the other [n - 1]. *)
Definition unit_list (K : RingOps) (n i : nat) : list K :=
  map (fun j => if Nat.eqb j i then r1 K else r0 K) (seq 0 n).

(** ** [QuiverHomSpaceFactory] *)

(** The key of a hom space: the keys of its domain and codomain. *)
Abbreviation Key := (RepKey * RepKey)%type (only parsing).

(** [QuiverHomSpaceFactory.create_key(self, domain, codomain)] *)
Definition create_key {K} (domain codomain : QuiverRep K) : Result Key :=
  if negb (quiver_is (rep_quiver domain) (rep_quiver codomain)) then
    Raise (ValueError "The quivers of the domain and codomain must be identical.")
  else if negb (ring_is (rep_base_ring domain) (rep_base_ring codomain)) then
    Raise (ValueError "The base rings of the domain and codomain must be identical.")
  else
    key0 <- factory_data_2 domain ;;
    key1 <- factory_data_2 codomain ;;
    Ok (key0, key1).

Section Factory.
Context {K : RingOps}.

(** [QuiverRep.get_object(version, key, [])]: the representation the
    factory of representations keeps under [key]. *)
Variable QuiverRep_get_object : RepKey -> QuiverRep K.

(** [QuiverHomSpaceFactory.create_object(self, version, key)]; [self_id] is
    the address of the new object. *)
Definition create_object (self_id : nat) (key : Key) : Result (HomSpace K) :=
  __init__ self_id (QuiverRep_get_object key.1) (QuiverRep_get_object key.2).

(** Modelled from the spec: the cache of [UniqueFactory]
    (sage/structure/factory.py, missing here), of which the spec says that
    objects are constructed once and cached by identity: a call computes the
    key, returns the object cached under it if there is one, and else
    creates the object and caches it. *)
Record FactoryState : Type := {
  cache : gmap Key (HomSpace K);
  next_id : nat
}.

Definition get_object (st : FactoryState) (key : Key)
  : Result (HomSpace K) * FactoryState :=
  match cache st !! key with
  | Some H => (Ok H, st)
  | None =>
      match create_object (next_id st) key with
      | Ok H => (Ok H, {| cache := <[key:=H]> (cache st);
                          next_id := S (next_id st) |})
      | Raise e => (Raise e, st)
      end
  end.

(** [QuiverHomSpace(domain, codomain)] *)
Definition QuiverHomSpace (st : FactoryState) (domain codomain : QuiverRep K)
  : Result (HomSpace K) * FactoryState :=
  match create_key domain codomain with
  | Ok key => get_object st key
  | Raise e => (Raise e, st)
  end.
End Factory.

(** ** Well-formed inputs

    What the classes [Quiver] and [QuiverRep] guarantee of their objects: the
    vertices of a quiver are pairwise distinct and contain the ends of every
    edge, and the matrix of an edge map has the shape of its two spaces. *)

Definition quiver_wf (Q : Quiver) : Prop :=
  NoDup (vertices Q) /\
  forall e, e ∈ edges Q -> e0 e ∈ vertices Q /\ e1 e ∈ vertices Q.

Definition rep_wf {K} (M : QuiverRep K) : Prop :=
  forall e, e ∈ edges (rep_quiver M) ->
    nrows (rep_maps M e) = dim M (e0 e) /\ ncols (rep_maps M e) = dim M (e1 e).

(** No edge of the quiver is a loop. *)
Definition loop_free (Q : Quiver) : Prop :=
  forall e, e ∈ edges Q -> e0 e <> e1 e.

(** ** The integers as base ring, and sample representations *)

Definition ZRing : RingOps :=
  {| carrier := Z; r0 := 0%Z; r1 := 1%Z; radd := Z.add; rmul := Z.mul;
     ropp := Z.opp; reqb := Z.eqb |}.

Definition ZZ : RingRef := {| ring_id := 1; ring_name := "Integer Ring" |}.

(** The quiver [{1: {1: ['a']}}]: one vertex and one loop. *)
Definition loop_quiver : Quiver :=
  {| quiver_id := 10; vertices := [1]; edges := [(1, 1, "a")] |}.

(** The representation of [loop_quiver] with the space [ZZ^1] at the vertex
    and multiplication by [x] along the loop. *)
Definition loop_rep (id : nat) (x : Z) : QuiverRep ZRing :=
  Build_QuiverRep ZRing id loop_quiver ZZ (fun _ => 1)
    (fun _ => Build_Matrix ZRing 1 1 (fun _ _ => x)) (Some id).

(** The vector [(1)] of the ambient space [ZZ^1]. *)
Definition one_vector : list ZRing := [1%Z].

(** The quiver [{1: {2: ['a', 'b']}}] of the docstrings. *)
Definition kronecker : Quiver :=
  {| quiver_id := 11; vertices := [1; 2];
     edges := [(1, 2, "a"); (1, 2, "b")] |}.

(** [Q.S(ZZ, 2)]: the simple representation at vertex 2. *)
Definition simple_2 (id : nat) (Q : Quiver) (R : RingRef) : QuiverRep ZRing :=
  Build_QuiverRep ZRing id Q R
    (fun v => if Nat.eqb v 2 then 1 else 0)
    (fun _ => Matrix_zero ZRing 0 1) (Some id).

(** A representation with the data of [Q.S(ZZ, 2)] that was made by a call of
    the class and not of the factory: its [_factory_data] is [None]. *)
Definition simple_2_direct (id : nat) (Q : Quiver) (R : RingRef)
  : QuiverRep ZRing :=
  Build_QuiverRep ZRing id Q R
    (fun v => if Nat.eqb v 2 then 1 else 0)
    (fun _ => Matrix_zero ZRing 0 1) None.

(** [Q.P(ZZ, 1)]: the projective representation at vertex 1, with basis
    [e_1] at vertex 1 and [a], [b] at vertex 2. *)
Definition projective_1 (id : nat) (Q : Quiver) (R : RingRef)
  : QuiverRep ZRing :=
  Build_QuiverRep ZRing id Q R
    (fun v => if Nat.eqb v 1 then 1 else 2)
    (fun e => Build_Matrix ZRing 1 2
       (fun _ c => if String.eqb e.2 "a"
                   then (if Nat.eqb c 0 then 1%Z else 0%Z)
                   else (if Nat.eqb c 1 then 1%Z else 0%Z))) (Some id).

(** A factory of representations that keeps [Q.S(ZZ, 2)] under key 1 and
    [Q.P(ZZ, 1)] under every other key, and a factory of hom spaces with an
    empty cache. *)
Definition sample_get (key : RepKey) : QuiverRep ZRing :=
  if Nat.eqb key 1 then simple_2 1 kronecker ZZ
  else projective_1 2 kronecker ZZ.

Definition empty_factory : @FactoryState ZRing :=
  {| cache := ∅; next_id := 100 |}.

(** The hom space from [Q.S(ZZ, 2)] to [Q.P(ZZ, 1)] of the docstrings: two
    variables (the matrix at vertex 2) and no equation. *)
Definition sample_space : HomSpace ZRing :=
  {| self_id := 7; _quiver := kronecker;
     _domain := simple_2 1 kronecker ZZ;
     _codomain := projective_1 2 kronecker ZZ;
     _space := kernel (Matrix_zero ZRing 2 0);
     _base := ZZ; identity_bound := false |}.

(** A library for the space [ZZ^1]: the generator [(1)], and every vector
    as its own list of coordinates. *)
Definition line_library : LinAlg ZRing :=
  {| space_gens := fun _ => [one_vector];
     space_coordinates := fun _ v => v |}.

(** A library for the space [ZZ^2]: the two unit vectors as generators, and
    every vector as its own list of coordinates. *)
Definition unit_vectors_2 : list (list ZRing) := [[1%Z; 0%Z]; [0%Z; 1%Z]].

Definition plane_library : LinAlg ZRing :=
  {| space_gens := fun _ => unit_vectors_2;
     space_coordinates := fun _ v => v |}.

(** ** The numbers the bookkeeping is expected to produce *)

(** [dim(M_v) * dim(N_v)] for each vertex, in the order of the vertices. *)
Definition vertex_dims {K} (domain codomain : QuiverRep K)
    (verts : list Vertex) : list nat :=
  map (fun v => dim domain v * dim codomain v) verts.

(** [dim(M_source) * dim(N_target)] for each edge. *)
Definition edge_dims {K} (domain codomain : QuiverRep K) (es : list Edge)
  : list nat :=
  map (fun e => dim domain (e0 e) * dim codomain (e1 e)) es.

Definition prefix_sum (l : list nat) (i : nat) : nat := sum_list (take i l).

Definition prefix_sums (l : list nat) : list nat :=
  map (prefix_sum l) (seq 0 (S (length l))).

(** The entry [t] of [varstart] when the cascading sum has reached [m]. *)
Definition cascade_at (l : list nat) (m t : nat) : nat :=
  if decide (t < m) then prefix_sum l t else nth (t - 1) l 0.

(** The iterations of the triple loop, in the order they run: the edge, the
    row [i] of [X] and the column [j] of [Y]. *)
Definition equations {K} (domain codomain : QuiverRep K)
  : list (Edge * nat * nat) :=
  flat_map (fun e =>
    flat_map (fun i =>
      map (fun j => (e, i, j)) (range 0 (ncols (rep_maps codomain e))))
      (range 0 (nrows (rep_maps domain e))))
    (edges (rep_quiver domain)).

(** The triple loop as one loop over its iterations. *)
Definition fill_equations {K : RingOps} (domain codomain : QuiverRep K)
    (verts : list Vertex) (varstart : list nat)
    (eqs : list (Edge * nat * nat)) (st : Matrix K * nat)
  : Result (Matrix K * nat) :=
  for_each (fun st eq =>
              fill_equation verts varstart (rep_maps domain eq.1.1)
                            (rep_maps codomain eq.1.1) eq.1.1 eq.1.2 eq.2 st)
           eqs st.

(** A list of writes [(row, value)] into column [c]. *)
Definition apply_writes {K : RingOps} (c : nat) (ws : list (nat * K))
    (M : Matrix K) : Matrix K :=
  fold_left (fun M w => mat_put M w.1 c w.2) ws M.

(** The writes of the two loops over [k] for the equation (i, j) of an edge
    whose source and target variables start at [s] and [t]. *)
Definition source_writes {K : RingOps} (s i j : nat) (Y : Matrix K)
  : list (nat * K) :=
  map (fun k => (s + i * nrows Y + k, entry Y k j)) (seq 0 (nrows Y)).

Definition target_writes {K : RingOps} (t i j : nat) (X Y : Matrix K)
  : list (nat * K) :=
  map (fun k => (t + k * ncols Y + j, ropp K (entry X i k))) (seq 0 (ncols X)).

(** All writes of one iteration of the triple loop. *)
Definition equation_writes {K : RingOps} (domain codomain : QuiverRep K)
    (verts : list Vertex) (eq : Edge * nat * nat) : list (nat * K) :=
  source_writes (var_offset domain codomain verts (e0 eq.1.1)) eq.1.2 eq.2
                (rep_maps codomain eq.1.1)
  ++ target_writes (var_offset domain codomain verts (e1 eq.1.1)) eq.1.2 eq.2
                   (rep_maps domain eq.1.1) (rep_maps codomain eq.1.1).

(** The state after the iterations [eqs], when no write fails. *)
Definition fill_pure {K : RingOps} (domain codomain : QuiverRep K)
    (verts : list Vertex) (eqs : list (Edge * nat * nat))
    (st : Matrix K * nat) : Matrix K * nat :=
  fold_left (fun st eq =>
               (apply_writes st.2 (equation_writes domain codomain verts eq) st.1,
                st.2 + 1))
            eqs st.

(** The homomorphism that assigns the zero map to every vertex. *)
Definition zero_hom {K : RingOps} (d c : QuiverRep K) : Hom K :=
  {| hom_quiver := rep_quiver d; hom_domain := d; hom_codomain := c;
     _vector := replicate (total_dim d c (vertices (rep_quiver d))) (r0 K) |}.

(** What a list of writes into one column adds to entry of [v * M] at that
    column: the sum of [v[row] * value]. *)
Definition wsum {K : RingOps} (v : list K) (ws : list (nat * K)) : K :=
  fold_right (fun w acc => radd K (rmul K (vget v w.1) w.2) acc) (r0 K) ws.

(** ** What is assumed of the base ring *)

(** The operations form a commutative ring. *)
Definition ring_laws (K : RingOps) : Prop :=
  ring_theory (r0 K) (r1 K) (radd K) (rmul K) (rsub K) (ropp K) eq.

(** [reqb] decides equality. *)
Definition eqb_correct (K : RingOps) : Prop :=
  forall x y : K, reqb K x y = true <-> x = y.

(** [v] lies in the left kernel of [M]: [v * M = 0]. *)
Definition in_kernel {K : RingOps} (v : list K) (M : Matrix K) : Prop :=
  length v = nrows M /\ forall c, c < ncols M -> dot v M c = r0 K.

(** The quiver [{1: {}, 2: {}}]: two vertices and no edge, and the
    representation of it with [ZZ^a] at vertex 1 and [ZZ^b] at vertex 2. *)
Definition points_quiver : Quiver :=
  {| quiver_id := 13; vertices := [1; 2]; edges := [] |}.

Definition points_rep (id a b : nat) : QuiverRep ZRing :=
  Build_QuiverRep ZRing id points_quiver ZZ
    (fun v => if Nat.eqb v 1 then a else b)
    (fun _ => Matrix_zero ZRing 0 0) (Some id).

(** The vector of the identity map of [Q.P(ZZ, 1)]: [(1)] at vertex 1 and
    the 2 x 2 identity matrix at vertex 2. *)
Definition identity_vector : list ZRing := [1%Z; 1%Z; 0%Z; 0%Z; 1%Z].

(** [Q.S(ZZ, 1)]: the simple representation at vertex 1. *)
Definition simple_1 (id : nat) (Q : Quiver) (R : RingRef) : QuiverRep ZRing :=
  Build_QuiverRep ZRing id Q R
    (fun v => if Nat.eqb v 1 then 1 else 0)
    (fun _ => Matrix_zero ZRing 1 0) (Some id).

(** What the cache of the factory keeps: under a key, a hom space between
    the representations kept under the two halves of the key, with the
    attribute [identity] bound as [__init__] binds it. *)
Definition cache_ok {K : RingOps} (get : RepKey -> QuiverRep K)
    (st : FactoryState) : Prop :=
  forall key H, cache st !! key = Some H ->
    _domain H = get key.1 /\ _codomain H = get key.2 /\
    identity_bound H = rep_is (get key.1) (get key.2).

(** ** The remaining methods of [QuiverHomSpace_generic] *)

(** [QuiverHomSpace_generic._repr_(self)]: [str] of a dimension is its
    decimal numeral. *)
Definition _repr_ {K} (L : LinAlg K) (self : HomSpace K) : string :=
  "Dimension " +:+ pretty (dimension L self) +:+ " QuiverHomSpace".

(** The argument of [_coerce_map_from_]: a hom space or any other object. *)
Inductive Other (K : RingOps) : Type :=
| OtherHomSpace (H : HomSpace K)
| OtherObject (o : PyObject K).
Arguments OtherHomSpace {K} H.
Arguments OtherObject {K} o.

(** [QuiverHomSpace_generic._coerce_map_from_(self, other)];
    [has_coerce_map_from a b] stands for [a.has_coerce_map_from(b)], a method
    of the representations. *)
Definition _coerce_map_from_ {K}
    (has_coerce_map_from : QuiverRep K -> QuiverRep K -> bool)
    (self : HomSpace K) (other : Other K) : bool :=
  match other with
  | OtherHomSpace other =>
      if negb (has_coerce_map_from (_domain other) (_domain self)) then false
      else if negb (has_coerce_map_from (_codomain self) (_codomain other))
      then false
      else true
  | OtherObject _ => false
  end.

(** [QuiverHomSpace_generic.an_element(self)]; [space_an_element S] stands
    for [S.an_element()], a method of the free module. *)
Definition an_element {K : RingOps} (space_an_element : Space K -> list K)
    (self : HomSpace K) : Result (Hom K) :=
  QuiverRepHom (_domain self) (_codomain self)
               (DVector (space_an_element (_space self))).

(* ================================================================== *)
(** * Properties *)

(** ** Loops *)

Lemma bind_Ok {A B} (m : Result A) (f : A -> Result B) (b : B) :
  bind m f = Ok b -> exists a, m = Ok a /\ f a = Ok b.
Proof. destruct m as [a|e]; simpl; [eauto | discriminate]. Qed.

Lemma for_each_app {S A} (body : S -> A -> Result S) xs ys s :
  for_each body (xs ++ ys) s = (s' <- for_each body xs s ;; for_each body ys s').
Proof.
  revert s. induction xs as [|x xs IH]; intros s; simpl; [reflexivity|].
  destruct (body s x) as [s'|e]; simpl; [apply IH | reflexivity].
Qed.

(** A loop that keeps an invariant indexed by the number of rounds. *)
Lemma for_each_inv {S A} (I : nat -> S -> Prop) (body : S -> A -> Result S)
    (xs : list A) (s : S) :
  I 0 s ->
  (forall n x s, xs !! n = Some x -> I n s ->
     exists s', body s x = Ok s' /\ I (Datatypes.S n) s') ->
  exists s', for_each body xs s = Ok s' /\ I (length xs) s'.
Proof.
  revert I s. induction xs as [|x xs IH]; intros I s H0 Hstep; simpl.
  - eauto.
  - destruct (Hstep 0 x s eq_refl H0) as (s1 & -> & H1). simpl.
    apply (IH (fun n => I (Datatypes.S n))); [assumption|].
    intros n y t Hy Ht. apply (Hstep (Datatypes.S n)); assumption.
Qed.

Lemma range_0 n : range 0 n = seq 0 n.
Proof. unfold range. f_equal. lia. Qed.

Lemma lookup_range_0 n i x : range 0 n !! i = Some x -> x = i /\ i < n.
Proof. rewrite range_0. intros H. apply lookup_seq in H. lia. Qed.

Lemma length_range_0 n : length (range 0 n) = n.
Proof. rewrite range_0. apply length_seq. Qed.

(** ** [list.index] *)

Lemma index_Ok v l i : index v l = Ok i -> l !! i = Some v /\ i < length l.
Proof.
  revert i. induction l as [|x l IH]; intros i; simpl; [discriminate|].
  destruct (decide (x = v)) as [->|Hne].
  - intros [= <-]. split; [reflexivity | lia].
  - intros H. apply bind_Ok in H as (n & Hn & [= <-]).
    destruct (IH n Hn). split; [assumption | lia].
Qed.

Lemma index_elem v l : v ∈ l -> exists i, index v l = Ok i.
Proof.
  induction l as [|x l IH]; intros Hin; [inversion Hin|]. simpl.
  destruct (decide (x = v)) as [->|Hne]; [eauto|].
  apply elem_of_cons in Hin as [->|Hin]; [congruence|].
  destruct (IH Hin) as [i ->]. simpl. eauto.
Qed.

Lemma index_app_fresh v pre suf :
  v ∉ pre -> index v (pre ++ v :: suf) = Ok (length pre).
Proof.
  induction pre as [|x pre IH]; intros Hn; simpl.
  - destruct (decide (v = v)); [reflexivity | congruence].
  - apply not_elem_of_cons in Hn as [Hne Hn].
    destruct (decide (x = v)); [congruence|]. rewrite (IH Hn). reflexivity.
Qed.

Lemma index_lookup_NoDup v l i :
  NoDup l -> l !! i = Some v -> index v l = Ok i.
Proof.
  intros Hnd Hl. apply take_drop_middle in Hl as Hsplit.
  rewrite <- Hsplit in Hnd |- *.
  apply NoDup_app in Hnd as (_ & Hdis & _).
  rewrite index_app_fresh.
  - rewrite length_take. f_equal. apply lookup_lt_Some in Hl. lia.
  - intros Hin. apply (Hdis v Hin). left.
Qed.

(** ** The bookkeeping of [varstart] and [eqs] *)

Lemma varstart_dims_from {K} (d c : QuiverRep K) pre suf :
  NoDup (pre ++ suf) ->
  for_each (fun varstart v =>
              i <- index v (pre ++ suf) ;;
              setitem varstart (i + 1) (dim d v * dim c v))
           suf (0 :: vertex_dims d c pre ++ replicate (length suf) 0)
  = Ok (0 :: vertex_dims d c (pre ++ suf)).
Proof.
  revert pre. induction suf as [|v suf IH]; intros pre Hnd; simpl.
  - rewrite !app_nil_r. reflexivity.
  - assert (Hfresh : v ∉ pre).
    { apply NoDup_app in Hnd as (_ & Hdis & _). intros Hin.
      apply (Hdis v Hin). left. }
    rewrite (index_app_fresh v pre suf Hfresh). simpl. unfold setitem.
    assert (Hlen : length (vertex_dims d c pre) = length pre)
      by apply length_map.
    destruct (decide _) as [_|Hge].
    2:{ exfalso. apply Hge. simpl. rewrite length_app, Hlen. simpl. lia. }
    simpl. replace (length pre + 1) with (S (length pre + 0)) by lia.
    simpl. rewrite <- Hlen at 1. rewrite insert_app_r. simpl.
    specialize (IH (pre ++ [v])).
    rewrite <- !app_assoc in IH. simpl in IH.
    unfold vertex_dims in IH |- *. rewrite map_app in IH. simpl in IH.
    rewrite <- app_assoc in IH. simpl in IH. apply IH. assumption.
Qed.

Lemma varstart_dims_Ok {K} (d c : QuiverRep K) verts :
  NoDup verts ->
  varstart_dims d c verts (replicate (length verts + 1) 0)
  = Ok (0 :: vertex_dims d c verts).
Proof.
  intros Hnd. unfold varstart_dims.
  replace (length verts + 1) with (S (length verts)) by lia.
  apply (varstart_dims_from d c [] verts Hnd).
Qed.

Lemma prefix_sum_S l t x :
  l !! t = Some x -> prefix_sum l (S t) = prefix_sum l t + x.
Proof.
  intros H. unfold prefix_sum. rewrite (take_S_r _ _ _ H), sum_list_with_app.
  simpl. lia.
Qed.

Lemma lookup_tabulate {A} (g : nat -> A) n t :
  map g (seq 0 n) !! t = if decide (t < n) then Some (g t) else None.
Proof.
  change (map g (seq 0 n)) with (g <$> seq 0 n). rewrite list_lookup_fmap.
  destruct (decide (t < n)).
  - rewrite lookup_seq_lt by assumption. reflexivity.
  - rewrite lookup_seq_ge by lia. reflexivity.
Qed.

Lemma cascade_init l :
  0 :: l = map (cascade_at l 2) (seq 0 (S (length l))).
Proof.
  apply list_eq. intros t. rewrite lookup_tabulate.
  destruct (decide (t < S (length l))) as [Hlt|Hge].
  - unfold cascade_at. destruct t as [|[|t]]; simpl.
    + reflexivity.
    + destruct l as [|x l]; simpl in *; [lia|].
      unfold prefix_sum. simpl. f_equal. lia.
    + destruct (nth_lookup_or_length l (S t) 0) as [H|H]; [exact H | lia].
  - apply lookup_ge_None. simpl. lia.
Qed.

Lemma cascade_step l n :
  2 + n < S (length l) ->
  (a <- getitem (map (cascade_at l (2 + n)) (seq 0 (S (length l)))) (2 + n) ;;
   b <- getitem (map (cascade_at l (2 + n)) (seq 0 (S (length l)))) (2 + n - 1) ;;
   setitem (map (cascade_at l (2 + n)) (seq 0 (S (length l)))) (2 + n) (a + b))
  = Ok (map (cascade_at l (3 + n)) (seq 0 (S (length l)))).
Proof.
  intros Hn. unfold getitem. rewrite !lookup_tabulate.
  destruct (decide (2 + n < S (length l))); [|lia].
  destruct (decide (2 + n - 1 < S (length l))); [|lia].
  cbn [bind]. unfold setitem. rewrite length_map, length_seq.
  destruct (decide (2 + n < S (length l))); [|lia].
  f_equal. apply list_eq. intros t.
  rewrite list_lookup_insert, length_map, length_seq, !lookup_tabulate.
  assert (Hx : l !! S n = Some (nth (S n) l 0)).
  { destruct (nth_lookup_or_length l (S n) 0) as [H|H]; [exact H | lia]. }
  destruct (decide (2 + n = t /\ 2 + n < S (length l))) as [[<- _]|Hne].
  - destruct (decide _) as [_|?]; [|lia]. f_equal. unfold cascade_at.
    destruct (decide (2 + n < 2 + n)); [lia|].
    destruct (decide (2 + n - 1 < 2 + n)); [|lia].
    destruct (decide (2 + n < 3 + n)); [|lia].
    change (2 + n) with (S (S n)). rewrite (prefix_sum_S l (S n) _ Hx).
    replace (S (S n) - 1) with (S n) by lia. lia.
  - destruct (decide (t < S (length l))); [|reflexivity]. f_equal.
    unfold cascade_at.
    destruct (decide (t < 2 + n)), (decide (t < 3 + n)); try reflexivity; lia.
Qed.

Lemma varstart_cascade_Ok l :
  varstart_cascade (0 :: l) = Ok (prefix_sums l).
Proof.
  unfold varstart_cascade.
  destruct (for_each_inv
    (fun n s => s = map (cascade_at l (2 + n)) (seq 0 (S (length l))))
    (fun varstart i =>
       a <- getitem varstart i ;;
       b <- getitem varstart (i - 1) ;;
       setitem varstart i (a + b))
    (range 2 (length (0 :: l))) (0 :: l)) as (s & Hs & Hinv).
  - apply cascade_init.
  - intros n x s Hx ->. unfold range in Hx. apply lookup_seq in Hx as [-> Hn].
    simpl in Hn. eexists. split; [|reflexivity].
    apply cascade_step. lia.
  - rewrite Hs, Hinv. f_equal. unfold prefix_sums, range.
    rewrite length_seq. simpl length.
    apply map_ext_in. intros t Ht. apply in_seq in Ht.
    unfold cascade_at. destruct (decide _); [reflexivity | lia].
Qed.

Lemma lookup_prefix_sums l i :
  i <= length l -> prefix_sums l !! i = Some (prefix_sum l i).
Proof.
  intros Hi. unfold prefix_sums. rewrite lookup_tabulate.
  destruct (decide _); [reflexivity | lia].
Qed.

Lemma length_prefix_sums l : length (prefix_sums l) = S (length l).
Proof. unfold prefix_sums. rewrite length_map, length_seq. reflexivity. Qed.

Lemma prefix_sum_all l : prefix_sum l (length l) = sum_list l.
Proof. unfold prefix_sum. rewrite firstn_all. reflexivity. Qed.

Lemma prefix_sum_mono l i j : i <= j -> prefix_sum l i <= prefix_sum l j.
Proof.
  unfold prefix_sum. revert i j.
  induction l as [|x l IH]; intros i j Hij.
  - rewrite !take_nil. reflexivity.
  - destruct i as [|i], j as [|j]; simpl; try lia.
    assert (i <= j) as Hij' by lia. specialize (IH i j Hij'). lia.
Qed.

Lemma prefix_sum_le_total l i : prefix_sum l i <= sum_list l.
Proof.
  destruct (decide (i <= length l)).
  - rewrite <- prefix_sum_all. apply prefix_sum_mono. assumption.
  - unfold prefix_sum. rewrite take_ge by lia. reflexivity.
Qed.

Lemma count_eqs_sum {K} (d c : QuiverRep K) es n :
  count_eqs d c es n = n + sum_list (edge_dims d c es).
Proof.
  unfold count_eqs. revert n. induction es as [|e es IH]; intros n; simpl.
  - lia.
  - rewrite IH. lia.
Qed.

Lemma coefficient_matrix_unfold {K : RingOps} (d c : QuiverRep K) :
  NoDup (vertices (rep_quiver d)) ->
  coefficient_matrix d c =
  for_each (fill_edge d c (vertices (rep_quiver d))
              (prefix_sums (vertex_dims d c (vertices (rep_quiver d)))))
           (edges (rep_quiver d))
           (Matrix_zero K
              (sum_list (vertex_dims d c (vertices (rep_quiver d))))
              (sum_list (edge_dims d c (edges (rep_quiver d)))), 0).
Proof.
  intros Hnd. unfold coefficient_matrix.
  rewrite (varstart_dims_Ok d c _ Hnd). cbn [bind].
  rewrite varstart_cascade_Ok. cbn [bind].
  rewrite length_prefix_sums. unfold getitem.
  rewrite lookup_prefix_sums by lia.
  replace (S (length (vertex_dims d c (vertices (rep_quiver d)))) - 1)
    with (length (vertex_dims d c (vertices (rep_quiver d)))) by lia.
  rewrite prefix_sum_all. cbn [bind]. rewrite count_eqs_sum. reflexivity.
Qed.

(** Nested loops run as one loop over the list of their iterations. *)
Lemma for_each_map {S A B} (body : S -> B -> Result S) (g : A -> B) xs s :
  for_each body (map g xs) s = for_each (fun s x => body s (g x)) xs s.
Proof.
  revert s. induction xs as [|x xs IH]; intros s; simpl; [reflexivity|].
  destruct (body s (g x)); simpl; [apply IH | reflexivity].
Qed.

Lemma for_each_flat_map {S A B} (body : S -> B -> Result S)
    (g : A -> list B) xs s :
  for_each body (flat_map g xs) s
  = for_each (fun s x => for_each body (g x) s) xs s.
Proof.
  revert s. induction xs as [|x xs IH]; intros s; simpl; [reflexivity|].
  rewrite for_each_app.
  destruct (for_each body (g x) s); simpl; [apply IH | reflexivity].
Qed.

Lemma for_each_ext {S A} (body1 body2 : S -> A -> Result S) xs s :
  (forall s x, body1 s x = body2 s x) ->
  for_each body1 xs s = for_each body2 xs s.
Proof.
  intros Hext. revert s. induction xs as [|x xs IH]; intros s; simpl.
  - reflexivity.
  - rewrite Hext. destruct (body2 s x); simpl; [apply IH | reflexivity].
Qed.

Lemma fill_edges_flatten {K : RingOps} (d c : QuiverRep K) verts varstart st :
  for_each (fill_edge d c verts varstart) (edges (rep_quiver d)) st
  = fill_equations d c verts varstart (equations d c) st.
Proof.
  unfold fill_equations, equations, fill_edge. symmetry.
  rewrite for_each_flat_map. apply for_each_ext. intros s e.
  rewrite for_each_flat_map. apply for_each_ext. intros s' i.
  rewrite for_each_map. reflexivity.
Qed.

Lemma elem_of_equations {K} (d c : QuiverRep K) e i j :
  (e, i, j) ∈ equations d c <->
  e ∈ edges (rep_quiver d) /\ i < nrows (rep_maps d e)
  /\ j < ncols (rep_maps c e).
Proof.
  unfold equations. rewrite !list_elem_of_In, in_flat_map. split.
  - intros (e' & He & Hin). apply in_flat_map in Hin as (i' & Hi & Hin).
    apply in_map_iff in Hin as (j' & [= <- <- <-] & Hj).
    rewrite range_0 in Hi, Hj. apply in_seq in Hi, Hj.
    split; [assumption | lia].
  - intros (He & Hi & Hj). exists e. split; [assumption|].
    apply in_flat_map. exists i. split; [rewrite range_0; apply in_seq; lia|].
    apply in_map_iff. exists j. split; [reflexivity|].
    rewrite range_0. apply in_seq. lia.
Qed.

(** ** Where the variables of a vertex start *)

Lemma var_offset_index {K} (d c : QuiverRep K) verts v s :
  index v verts = Ok s ->
  prefix_sum (vertex_dims d c verts) s = var_offset d c verts v.
Proof.
  revert s. induction verts as [|x verts IH]; intros s; simpl; [discriminate|].
  repeat case_decide; try congruence.
  - intros [= <-]. reflexivity.
  - intros Hb. apply bind_Ok in Hb as (n & Hn & [= <-]).
    unfold prefix_sum in *. simpl. rewrite (IH n Hn). reflexivity.
Qed.

Lemma var_offset_bound {K} (d c : QuiverRep K) verts v :
  v ∈ verts ->
  var_offset d c verts v + dim d v * dim c v
  <= sum_list (vertex_dims d c verts).
Proof.
  induction verts as [|x verts IH]; intros Hin; [inversion Hin|]. simpl.
  case_decide as Hx; [subst; lia|].
  apply elem_of_cons in Hin as [->|Hin]; [congruence|].
  specialize (IH Hin). lia.
Qed.

Lemma var_offset_disjoint {K} (d c : QuiverRep K) verts u v :
  u ∈ verts -> v ∈ verts -> u <> v ->
  var_offset d c verts u + dim d u * dim c u <= var_offset d c verts v
  \/ var_offset d c verts v + dim d v * dim c v <= var_offset d c verts u.
Proof.
  induction verts as [|x verts IH]; intros Hu Hv Huv; [inversion Hu|]. simpl.
  repeat case_decide; subst.
  - congruence.
  - left. lia.
  - right. lia.
  - apply elem_of_cons in Hu as [->|Hu]; [congruence|].
    apply elem_of_cons in Hv as [->|Hv]; [congruence|].
    destruct (IH Hu Hv Huv); [left | right]; lia.
Qed.

(** What the bookkeeping gives for a vertex of the quiver. *)
Lemma varstart_vertex {K} (d c : QuiverRep K) verts v :
  v ∈ verts ->
  exists s, index v verts = Ok s /\
    getitem (prefix_sums (vertex_dims d c verts)) s
    = Ok (var_offset d c verts v).
Proof.
  intros Hin. destruct (index_elem _ _ Hin) as [s Hs]. exists s.
  split; [assumption|]. unfold getitem.
  destruct (index_Ok _ _ _ Hs) as [_ Hlt].
  rewrite lookup_prefix_sums.
  - rewrite (var_offset_index d c _ _ _ Hs). reflexivity.
  - unfold vertex_dims. rewrite length_map. lia.
Qed.

(** ** The loops over [k] *)

Lemma apply_writes_shape {K : RingOps} c ws (M : Matrix K) :
  nrows (apply_writes c ws M) = nrows M /\ ncols (apply_writes c ws M) = ncols M.
Proof.
  unfold apply_writes. revert M. induction ws as [|w ws IH]; intros M; simpl.
  - split; reflexivity.
  - destruct (IH (mat_put M w.1 c w.2)) as [-> ->]. split; reflexivity.
Qed.

Lemma apply_writes_app {K : RingOps} c ws1 ws2 (M : Matrix K) :
  apply_writes c (ws1 ++ ws2) M = apply_writes c ws2 (apply_writes c ws1 M).
Proof. unfold apply_writes. apply fold_left_app. Qed.

Lemma k_loop_writes {K : RingOps} verts varstart (v : Vertex) s off
    (row : nat -> nat -> nat) (g : nat -> K) eqn ks (cm : Matrix K) :
  index v verts = Ok s ->
  getitem varstart s = Ok off ->
  (forall k, k ∈ ks -> row off k < nrows cm) ->
  eqn < ncols cm ->
  for_each (fun coef_mat k =>
              s <- index v verts ;;
              vs <- getitem varstart s ;;
              mat_set coef_mat (row vs k) eqn (g k)) ks cm
  = Ok (apply_writes eqn (map (fun k => (row off k, g k)) ks) cm).
Proof.
  intros Hs Hoff. rewrite Hs. cbn [bind]. rewrite Hoff. cbn [bind].
  revert cm. induction ks as [|k ks IH]; intros cm Hrows Heqn;
    cbn [for_each map]; [reflexivity|].
  unfold mat_set at 1.
  destruct (decide _) as [_|Hbad].
  2:{ exfalso. apply Hbad. split; [apply Hrows; left | assumption]. }
  cbn [bind]. rewrite IH; [reflexivity | | assumption].
  intros k' Hk'. apply Hrows. right. assumption.
Qed.

Lemma fill_equation_Ok {K : RingOps} verts varstart (X Y : Matrix K) e i j
    (cm : Matrix K) eqn s t offs offt :
  index (e0 e) verts = Ok s -> getitem varstart s = Ok offs ->
  index (e1 e) verts = Ok t -> getitem varstart t = Ok offt ->
  (forall k, k < nrows Y -> offs + i * nrows Y + k < nrows cm) ->
  (forall k, k < ncols X -> offt + k * ncols Y + j < nrows cm) ->
  eqn < ncols cm ->
  fill_equation verts varstart X Y e i j (cm, eqn)
  = Ok (apply_writes eqn
          (source_writes offs i j Y ++ target_writes offt i j X Y) cm,
        eqn + 1).
Proof.
  intros Hs Hos Ht Hot Hsrc Htgt Heqn. unfold fill_equation. cbn [fst snd].
  rewrite !range_0.
  rewrite (k_loop_writes verts varstart (e0 e) s offs
             (fun vs k => vs + i * nrows Y + k) (fun k => entry Y k j)
             eqn (seq 0 (nrows Y)) cm Hs Hos); [|intros k Hk|assumption].
  2:{ apply Hsrc. apply list_elem_of_In, in_seq in Hk. lia. }
  cbn [bind]. fold (source_writes offs i j Y).
  destruct (apply_writes_shape eqn (source_writes offs i j Y) cm) as [Hr Hc].
  rewrite (k_loop_writes verts varstart (e1 e) t offt
             (fun vt k => vt + k * ncols Y + j)
             (fun k => ropp K (entry X i k))
             eqn (seq 0 (ncols X)) _ Ht Hot);
    [|intros k Hk; rewrite Hr|rewrite Hc; assumption].
  2:{ apply Htgt. apply list_elem_of_In, in_seq in Hk. lia. }
  cbn [bind]. fold (target_writes offt i j X Y).
  rewrite apply_writes_app. reflexivity.
Qed.

(** ** The triple loop on well-formed representations *)

Lemma fill_pure_snd {K : RingOps} (d c : QuiverRep K) verts eqs st :
  (fill_pure d c verts eqs st).2 = st.2 + length eqs.
Proof.
  unfold fill_pure. revert st. induction eqs as [|eq eqs IH]; intros st; simpl.
  - lia.
  - rewrite IH. simpl. lia.
Qed.

Lemma fill_pure_shape {K : RingOps} (d c : QuiverRep K) verts eqs st :
  nrows (fill_pure d c verts eqs st).1 = nrows st.1
  /\ ncols (fill_pure d c verts eqs st).1 = ncols st.1.
Proof.
  unfold fill_pure. revert st. induction eqs as [|eq eqs IH]; intros st; simpl.
  - split; reflexivity.
  - destruct (IH (apply_writes st.2 (equation_writes d c verts eq) st.1,
                  st.2 + 1)) as [-> ->]. simpl.
    apply apply_writes_shape.
Qed.

Lemma quiver_eq_true (a b : Quiver) :
  quiver_eq a b = true -> vertices a = vertices b /\ edges a = edges b.
Proof. unfold quiver_eq. intros H. apply bool_decide_eq_true in H. exact H. Qed.

Section WellFormed.
Context {K : RingOps} (d c : QuiverRep K).
Hypothesis Hq : quiver_wf (rep_quiver d).
Hypothesis Hd : rep_wf d.
Hypothesis Hc : rep_wf c.
Hypothesis Hsame : quiver_eq (rep_quiver d) (rep_quiver c) = true.


Lemma wf_shapes e :
  e ∈ edges (rep_quiver d) ->
  nrows (rep_maps d e) = dim d (e0 e) /\ ncols (rep_maps d e) = dim d (e1 e) /\
  nrows (rep_maps c e) = dim c (e0 e) /\ ncols (rep_maps c e) = dim c (e1 e) /\
  e0 e ∈ vertices (rep_quiver d) /\ e1 e ∈ vertices (rep_quiver d).
Proof using Hq Hd Hc Hsame.
  intros He. destruct (Hd e He) as [? ?].
  destruct (quiver_eq_true _ _ Hsame) as [_ Hes].
  destruct (Hc e) as [? ?]; [rewrite <- Hes; assumption|].
  destruct Hq as [_ Hends]. destruct (Hends e He). tauto.
Qed.

Lemma fill_equations_Ok eqs cm n :
  (forall eq, eq ∈ eqs -> eq ∈ equations d c) ->
  nrows cm = sum_list (vertex_dims d c (vertices (rep_quiver d))) ->
  n + length eqs <= ncols cm ->
  fill_equations d c (vertices (rep_quiver d))
    (prefix_sums (vertex_dims d c (vertices (rep_quiver d)))) eqs (cm, n)
  = Ok (fill_pure d c (vertices (rep_quiver d)) eqs (cm, n)).
Proof using Hq Hd Hc Hsame.
  set (verts := vertices (rep_quiver d)).
  set (dims := vertex_dims d c verts).
  unfold fill_equations, fill_pure. revert cm n.
  induction eqs as [|[[e i] j] eqs IH]; intros cm n Hin Hrows Hcols;
    cbn [for_each fold_left]; [reflexivity|].
  assert (Heq : (e, i, j) ∈ equations d c) by (apply Hin; left).
  apply elem_of_equations in Heq as (He & Hi & Hj).
  destruct (wf_shapes e He) as (HXr & HXc & HYr & HYc & Hv0 & Hv1).
  destruct (varstart_vertex d c verts (e0 e) Hv0) as (s & Hs & Hos).
  destruct (varstart_vertex d c verts (e1 e) Hv1) as (t & Ht & Hot).
  pose proof (var_offset_bound d c verts (e0 e) Hv0) as Hb0.
  pose proof (var_offset_bound d c verts (e1 e) Hv1) as Hb1.
  cbn [fst snd] in *.
  rewrite (fill_equation_Ok verts (prefix_sums dims) (rep_maps d e)
             (rep_maps c e) e i j cm n s t _ _ Hs Hos Ht Hot).
  - cbn [bind]. unfold equation_writes. cbn [fst snd].
    replace (n + 1) with (S n) by lia.
    rewrite IH.
    + reflexivity.
    + intros eq Hq'. apply Hin. right. assumption.
    + destruct (apply_writes_shape n
        (source_writes (var_offset d c verts (e0 e)) i j (rep_maps c e) ++
         target_writes (var_offset d c verts (e1 e)) i j (rep_maps d e)
           (rep_maps c e)) cm) as [-> _]. assumption.
    + destruct (apply_writes_shape n
        (source_writes (var_offset d c verts (e0 e)) i j (rep_maps c e) ++
         target_writes (var_offset d c verts (e1 e)) i j (rep_maps d e)
           (rep_maps c e)) cm) as [_ ->]. simpl in Hcols. lia.
  - intros k Hk. rewrite Hrows. fold dims in Hb0. nia.
  - intros k Hk. rewrite Hrows. fold dims in Hb1. nia.
  - simpl in Hcols. lia.
Qed.
End WellFormed.

Lemma length_flat_map_map {A B C} (g : A -> B -> C) (l1 : list A)
    (l2 : list B) :
  length (flat_map (fun i => map (g i) l2) l1) = length l1 * length l2.
Proof.
  induction l1 as [|a l1 IH]; simpl; [reflexivity|].
  rewrite length_app, length_map, IH. reflexivity.
Qed.

Lemma length_equations_gen {K} (d c : QuiverRep K) :
  length (equations d c)
  = sum_list (map (fun e => nrows (rep_maps d e) * ncols (rep_maps c e))
                  (edges (rep_quiver d))).
Proof.
  unfold equations. induction (edges (rep_quiver d)) as [|e es IH]; simpl.
  - reflexivity.
  - rewrite length_app, IH, length_flat_map_map, !length_range_0.
    reflexivity.
Qed.

Lemma length_equations {K} (d c : QuiverRep K) :
  quiver_wf (rep_quiver d) -> rep_wf d -> rep_wf c ->
  quiver_eq (rep_quiver d) (rep_quiver c) = true ->
  length (equations d c) = sum_list (edge_dims d c (edges (rep_quiver d))).
Proof.
  intros Hq Hd Hc Hsame. rewrite length_equations_gen. unfold edge_dims.
  f_equal. apply map_ext_in. intros e He. apply list_elem_of_In in He.
  destruct (wf_shapes d c Hq Hd Hc Hsame e He) as (-> & _ & _ & -> & _).
  reflexivity.
Qed.

Lemma apply_writes_other_column {K : RingOps} c ws (M : Matrix K) r c' :
  c' <> c -> entry (apply_writes c ws M) r c' = entry M r c'.
Proof.
  intros Hne. unfold apply_writes. revert M.
  induction ws as [|w ws IH]; intros M; simpl; [reflexivity|].
  rewrite IH. simpl.
  destruct (Nat.eqb_spec c' c) as [->|_]; [congruence|].
  rewrite andb_false_r. reflexivity.
Qed.

Lemma coefficient_matrix_Ok {K : RingOps} (d c : QuiverRep K) :
  quiver_wf (rep_quiver d) -> rep_wf d -> rep_wf c ->
  quiver_eq (rep_quiver d) (rep_quiver c) = true ->
  coefficient_matrix d c
  = Ok (fill_pure d c (vertices (rep_quiver d)) (equations d c)
          (Matrix_zero K
             (sum_list (vertex_dims d c (vertices (rep_quiver d))))
             (sum_list (edge_dims d c (edges (rep_quiver d)))), 0)).
Proof.
  intros Hq Hd Hc Hsame.
  rewrite (coefficient_matrix_unfold d c (proj1 Hq)), fill_edges_flatten.
  apply fill_equations_Ok; try assumption.
  - intros eq Heq. exact Heq.
  - reflexivity.
  - simpl. rewrite (length_equations d c Hq Hd Hc Hsame). lia.
Qed.

Lemma bind_ret {A} (m : Result A) : (x <- m ;; Ok x) = m.
Proof. destruct m; reflexivity. Qed.

Lemma fill_pure_app {K : RingOps} (d c : QuiverRep K) verts eqs1 eqs2 st :
  fill_pure d c verts (eqs1 ++ eqs2) st
  = fill_pure d c verts eqs2 (fill_pure d c verts eqs1 st).
Proof. unfold fill_pure. apply fold_left_app. Qed.

Lemma fill_pure_other_columns {K : RingOps} (d c : QuiverRep K) verts eqs st
    r c' :
  c' < st.2 \/ st.2 + length eqs <= c' ->
  entry (fill_pure d c verts eqs st).1 r c' = entry st.1 r c'.
Proof.
  unfold fill_pure. revert st.
  induction eqs as [|eq eqs IH]; intros st Hc'; simpl; [reflexivity|].
  rewrite IH; simpl.
  - apply apply_writes_other_column. simpl in Hc'. lia.
  - simpl in Hc'. lia.
Qed.

Lemma index_in_block i k a b : i < a -> k < b -> i * b + k < a * b.
Proof. intros Hi Hk. nia. Qed.

(** *** What a list of writes leaves in its column *)

Lemma entry_apply_writes_notin {K : RingOps} c ws (M : Matrix K) r :
  (forall w, w ∈ ws -> w.1 <> r) ->
  entry (apply_writes c ws M) r c = entry M r c.
Proof.
  unfold apply_writes. revert M.
  induction ws as [|w ws IH]; intros M Hnot; simpl; [reflexivity|].
  rewrite IH by (intros w' Hw'; apply Hnot; right; assumption).
  simpl. destruct (Nat.eqb_spec r w.1) as [Heq|_]; [|reflexivity].
  exfalso. apply (Hnot w); [left | congruence].
Qed.

Lemma entry_apply_writes_in {K : RingOps} c ws (M : Matrix K) r x :
  NoDup (map fst ws) -> (r, x) ∈ ws ->
  entry (apply_writes c ws M) r c = x.
Proof.
  unfold apply_writes. revert M.
  induction ws as [|w ws IH]; intros M Hnd Hin; [inversion Hin|].
  simpl in Hnd. apply NoDup_cons in Hnd as [Hw Hnd].
  apply elem_of_cons in Hin as [<-|Hin]; simpl.
  - fold (apply_writes c ws (mat_put M r c x)).
    rewrite entry_apply_writes_notin.
    + simpl. rewrite !Nat.eqb_refl. reflexivity.
    + intros w' Hw' Heq. apply Hw. simpl. rewrite <- Heq.
      apply list_elem_of_In, in_map, list_elem_of_In. assumption.
  - apply IH; assumption.
Qed.

Lemma NoDup_source_rows {K : RingOps} s i j (Y : Matrix K) :
  NoDup (map fst (source_writes s i j Y)).
Proof.
  unfold source_writes. rewrite map_map. cbn [fst].
  apply (NoDup_fmap_2_strong (fun k => s + i * nrows Y + k)); [|apply NoDup_seq].
  intros k k' _ _ Hkk. lia.
Qed.

Lemma NoDup_target_rows {K : RingOps} t i j (X Y : Matrix K) :
  j < ncols Y ->
  NoDup (map fst (target_writes t i j X Y)).
Proof.
  intros Hj. unfold target_writes. rewrite map_map. cbn [fst].
  apply (NoDup_fmap_2_strong (fun k => t + k * ncols Y + j)); [|apply NoDup_seq].
  intros k k' _ _ Hkk. nia.
Qed.

(** The column of one iteration after its two loops over [k]: the second
    loop has the last word on the rows it writes, the first loop on its
    other rows, and the remaining rows are left as they were. *)
Lemma equation_column {K : RingOps} n s t i j (X Y M : Matrix K) :
  j < ncols Y ->
  let M' := apply_writes n (source_writes s i j Y ++ target_writes t i j X Y) M in
  (forall k, k < ncols X ->
     entry M' (t + k * ncols Y + j) n = ropp K (entry X i k)) /\
  (forall k, k < nrows Y ->
     (forall k', k' < ncols X -> s + i * nrows Y + k <> t + k' * ncols Y + j) ->
     entry M' (s + i * nrows Y + k) n = entry Y k j) /\
  (forall r,
     (forall k, k < nrows Y -> r <> s + i * nrows Y + k) ->
     (forall k, k < ncols X -> r <> t + k * ncols Y + j) ->
     entry M' r n = entry M r n).
Proof.
  intros Hj M'. unfold M'. rewrite apply_writes_app.
  split; [|split].
  - intros k Hk. apply entry_apply_writes_in.
    + apply NoDup_target_rows. assumption.
    + unfold target_writes. apply list_elem_of_In, in_map_iff. exists k.
      split; [reflexivity | apply in_seq; lia].
  - intros k Hk Hfree. rewrite entry_apply_writes_notin.
    + apply entry_apply_writes_in; [apply NoDup_source_rows|].
      unfold source_writes. apply list_elem_of_In, in_map_iff. exists k.
      split; [reflexivity | apply in_seq; lia].
    + intros w Hw Heq. unfold target_writes in Hw.
      apply list_elem_of_In, in_map_iff in Hw as (k' & <- & Hk').
      apply in_seq in Hk'. cbn [fst] in Heq.
      apply (Hfree k'); [lia | congruence].
  - intros r Hsrc Htgt. rewrite !entry_apply_writes_notin; [reflexivity| |].
    + intros w Hw Heq. unfold source_writes in Hw.
      apply list_elem_of_In, in_map_iff in Hw as (k & <- & Hk).
      apply in_seq in Hk. cbn [fst] in Heq.
      apply (Hsrc k); [lia | congruence].
    + intros w Hw Heq. unfold target_writes in Hw.
      apply list_elem_of_In, in_map_iff in Hw as (k & <- & Hk).
      apply in_seq in Hk. cbn [fst] in Heq.
      apply (Htgt k); [lia | congruence].
Qed.

(** C3: on well-formed representations over the same quiver the coefficient
    matrix has one row per variable, the sum over the vertices [v] of
    [dim(M_v) * dim(N_v)], and one column per equation, the sum over the edges
    [e] of [dim(M_source(e)) * dim(N_target(e))]; the triple loop runs exactly
    that many iterations and ends with [eqn] equal to the number of columns.
    Iteration number [n], for the edge [e], the row [i] of [X] and the column
    [j] of [Y], starts with [eqn = n] and a column [n] of zeros, leaves the
    other columns as they are and leaves [eqn = n + 1].  Into column [n] it
    writes [-X[i, k]] at the variable (k, j) of the target of [e], [Y[k, j]]
    at the variable (i, k) of the source of [e] unless that entry is one the
    second loop writes too, and nothing elsewhere; source and target entries
    never meet when [e] is no loop.  No later iteration touches column [n]:
    it is the same in the finished matrix. *)
Theorem coefficient_matrix_shape {K : RingOps} (d c : QuiverRep K) :
  quiver_wf (rep_quiver d) -> rep_wf d -> rep_wf c ->
  quiver_eq (rep_quiver d) (rep_quiver c) = true ->
  let verts := vertices (rep_quiver d) in
  let rows := sum_list (vertex_dims d c verts) in
  let cols := sum_list (edge_dims d c (edges (rep_quiver d))) in
  let varstart := prefix_sums (vertex_dims d c verts) in
  let start := (Matrix_zero K rows cols, 0) in
  exists cm,
    coefficient_matrix d c = Ok (cm, cols) /\
    nrows cm = rows /\ ncols cm = cols /\
    coefficient_matrix d c
    = fill_equations d c verts varstart (equations d c) start /\
    length (equations d c) = cols /\
    forall n e i j, equations d c !! n = Some (e, i, j) ->
      let X := rep_maps d e in
      let Y := rep_maps c e in
      let s := var_offset d c verts (e0 e) in
      let t := var_offset d c verts (e1 e) in
      exists st st',
        fill_equations d c verts varstart (take n (equations d c)) start
        = Ok st /\
        st.2 = n /\
        (forall r, entry st.1 r n = r0 K) /\
        fill_equation verts varstart X Y e i j st = Ok st' /\
        st'.2 = n + 1 /\
        (forall r c', c' <> n -> entry st'.1 r c' = entry st.1 r c') /\
        (forall k, k < ncols X ->
           entry st'.1 (t + k * ncols Y + j) n = ropp K (entry X i k)) /\
        (forall k, k < nrows Y ->
           (forall k', k' < ncols X ->
              s + i * nrows Y + k <> t + k' * ncols Y + j) ->
           entry st'.1 (s + i * nrows Y + k) n = entry Y k j) /\
        (forall r,
           (forall k, k < nrows Y -> r <> s + i * nrows Y + k) ->
           (forall k, k < ncols X -> r <> t + k * ncols Y + j) ->
           entry st'.1 r n = r0 K) /\
        (e0 e <> e1 e ->
         forall k k', k < nrows Y -> k' < ncols X ->
           s + i * nrows Y + k <> t + k' * ncols Y + j) /\
        (forall r, entry cm r n = entry st'.1 r n).
Proof.
  intros Hq Hd Hc Hsame verts rows cols varstart start.
  pose proof (length_equations d c Hq Hd Hc Hsame) as Hlen.
  pose proof (coefficient_matrix_Ok d c Hq Hd Hc Hsame) as Hcm.
  fold verts rows cols start in Hcm, Hlen.
  exists (fill_pure d c verts (equations d c) start).1.
  destruct (fill_pure_shape d c verts (equations d c) start) as [Hr Hco].
  pose proof (fill_pure_snd d c verts (equations d c) start) as Hsnd.
  simpl in Hr, Hco, Hsnd. rewrite Hlen in Hsnd.
  split; [|split; [assumption|split; [assumption|split; [|split]]]].
  - rewrite Hcm. f_equal. rewrite <- Hsnd. apply surjective_pairing.
  - rewrite Hcm. symmetry. apply fill_equations_Ok; try assumption.
    + intros eq Heq. exact Heq.
    + reflexivity.
    + simpl. lia.
  - assumption.
  - intros n e i j Hn X Y s t.
    assert (Hnlt : n < cols) by (rewrite <- Hlen; eapply lookup_lt_Some, Hn).
    set (st := fill_pure d c verts (take n (equations d c)) start).
    exists st, (fill_pure d c verts [(e, i, j)] st).
    assert (Hst2 : st.2 = n).
    { unfold st. rewrite fill_pure_snd, length_take. simpl. lia. }
    destruct (fill_pure_shape d c verts (take n (equations d c)) start)
      as [Hsr Hsc]. fold st in Hsr, Hsc. simpl in Hsr, Hsc.
    assert (Hzero : forall r, entry st.1 r n = r0 K).
    { intros r. unfold st. rewrite fill_pure_other_columns; [reflexivity|].
      right. simpl. rewrite length_take. lia. }
    assert (Heq : (e, i, j) ∈ equations d c)
      by (eapply list_elem_of_lookup_2; exact Hn).
    apply elem_of_equations in Heq as (He & Hi & Hj).
    destruct (wf_shapes d c Hq Hd Hc Hsame e He)
      as (HXr & HXc & HYr & HYc & Hv0 & Hv1).
    destruct (equation_column n s t i j X Y st.1 Hj) as (Htgt & Hsrc & Hrest).
    split; [|split; [assumption|split; [assumption|split; [|split; [|split]]]]].
    + apply fill_equations_Ok; try assumption.
      * intros eq Heq. apply elem_of_take in Heq as (m & Hm & _).
        eapply list_elem_of_lookup_2. exact Hm.
      * reflexivity.
      * simpl. rewrite length_take. lia.
    + rewrite <- (bind_ret (fill_equation _ _ _ _ _ _ _ _)).
      rewrite (surjective_pairing st).
      change (fill_equations d c verts varstart [(e, i, j)] (st.1, st.2)
              = Ok (fill_pure d c verts [(e, i, j)] (st.1, st.2))).
      apply fill_equations_Ok; try assumption.
      * intros eq Heq. apply list_elem_of_singleton in Heq as ->.
        eapply list_elem_of_lookup_2. exact Hn.
      * simpl. rewrite Hsc, Hst2. lia.
    + simpl. lia.
    + intros r c' Hc'. simpl. apply apply_writes_other_column. lia.
    + assert (Hst' : (fill_pure d c verts [(e, i, j)] st).1
                     = apply_writes n
                         (source_writes s i j Y ++ target_writes t i j X Y)
                         st.1).
      { unfold fill_pure, equation_writes. cbn [fold_left fst snd].
        rewrite Hst2. reflexivity. }
      rewrite Hst'.
      split; [exact Htgt|]. split; [exact Hsrc|]. split.
      { intros r H1 H2. rewrite (Hrest r H1 H2). apply Hzero. }
      split.
      { intros Hne k k' Hk Hk'.
        pose proof (var_offset_bound d c verts _ Hv0) as Hb0.
        pose proof (var_offset_bound d c verts _ Hv1) as Hb1.
        pose proof (var_offset_disjoint d c verts _ _ Hv0 Hv1 Hne) as Hdis.
        fold s t in Hb0, Hb1, Hdis. unfold X, Y in *.
        rewrite HYr, HXr, HXc, HYc in *.
        pose proof (index_in_block i k _ _ Hi Hk).
        pose proof (index_in_block k' j _ _ Hk' Hj). lia. }
      intros r. rewrite <- Hst'.
      rewrite <- (take_drop_middle _ _ _ Hn) at 1.
      rewrite fill_pure_app.
      change ((e, i, j) :: drop (S n) (equations d c))
        with ([(e, i, j)] ++ drop (S n) (equations d c)).
      rewrite fill_pure_app. fold st.
      apply fill_pure_other_columns.
      left. rewrite fill_pure_snd. simpl. lia.
Qed.

(** ** Errors of the construction *)

Lemma init_checks_pass {K : RingOps} self (d c : QuiverRep K) :
  quiver_wf (rep_quiver d) -> rep_wf d -> rep_wf c ->
  quiver_eq (rep_quiver d) (rep_quiver c) = true ->
  ring_eq (rep_base_ring c) (rep_base_ring d) = true ->
  exists H, __init__ self d c = Ok H.
Proof.
  intros Hq Hd Hc Hsame Hring. unfold __init__.
  rewrite Hsame, Hring. cbn [negb].
  rewrite (coefficient_matrix_Ok d c Hq Hd Hc Hsame). cbn [bind]. eauto.
Qed.

Lemma create_key_Ok {K} (d c : QuiverRep K) key :
  create_key d c = Ok key ->
  quiver_is (rep_quiver d) (rep_quiver c) = true /\
  ring_is (rep_base_ring d) (rep_base_ring c) = true /\
  _factory_data d = Some key.1 /\ _factory_data c = Some key.2 /\
  key = (rep_factory_key d, rep_factory_key c).
Proof.
  unfold create_key, factory_data_2, rep_factory_key.
  destruct (quiver_is _ _); [|discriminate].
  destruct (ring_is _ _); [|discriminate].
  destruct (_factory_data d); [|discriminate].
  destruct (_factory_data c); [|discriminate].
  intros [= <-]. repeat split.
Qed.

(** C2, as amended: the factory's [create_key] raises a [ValueError] exactly
    when the quivers or the base rings of domain and codomain are not the
    very same objects ([is not]); when they are, it raises a [TypeError]
    exactly when domain or codomain was not made by the factory of
    representations, and it raises nothing else.  An error of [create_key]
    is the error of the call of the factory, which leaves the cache as it
    was.  When [create_key] passes, for well-formed representations that the
    factory of representations keeps under their keys and whose quivers and
    base rings are equal, the call of the factory raises nothing.
    [QuiverHomSpace_generic.__init__] raises a [ValueError] exactly when the
    quivers or the base rings are not equal ([!=]), and nothing else on
    well-formed representations. *)
Theorem construction_errors {K : RingOps} (get : RepKey -> QuiverRep K)
    (st : FactoryState) (self : nat) (d c : QuiverRep K) :
  quiver_wf (rep_quiver d) -> rep_wf d -> rep_wf c ->
  is_ValueError (create_key d c)
  = negb (quiver_is (rep_quiver d) (rep_quiver c))
    || negb (ring_is (rep_base_ring d) (rep_base_ring c)) /\
  is_TypeError (create_key d c)
  = quiver_is (rep_quiver d) (rep_quiver c)
    && ring_is (rep_base_ring d) (rep_base_ring c)
    && (negb (made_by_factory d) || negb (made_by_factory c)) /\
  raises (create_key d c)
  = is_ValueError (create_key d c) || is_TypeError (create_key d c) /\
  (forall e, create_key d c = Raise e ->
   QuiverHomSpace get st d c = (Raise e, st)) /\
  (raises (create_key d c) = false ->
   get (rep_factory_key d) = d -> get (rep_factory_key c) = c ->
   quiver_eq (rep_quiver d) (rep_quiver c) = true ->
   ring_eq (rep_base_ring c) (rep_base_ring d) = true ->
   raises (QuiverHomSpace get st d c).1 = false) /\
  is_ValueError (__init__ self d c)
  = negb (quiver_eq (rep_quiver d) (rep_quiver c))
    || negb (ring_eq (rep_base_ring c) (rep_base_ring d)) /\
  raises (__init__ self d c) = is_ValueError (__init__ self d c).
Proof.
  intros Hq Hd Hc.
  assert (Hinit : forall n,
    is_ValueError (__init__ n d c)
    = negb (quiver_eq (rep_quiver d) (rep_quiver c))
      || negb (ring_eq (rep_base_ring c) (rep_base_ring d)) /\
    raises (__init__ n d c) = is_ValueError (__init__ n d c)).
  { intros n.
    destruct (quiver_eq (rep_quiver d) (rep_quiver c)) eqn:Hsame;
      [|unfold __init__; rewrite Hsame; split; reflexivity].
    destruct (ring_eq (rep_base_ring c) (rep_base_ring d)) eqn:Hring;
      [|unfold __init__; rewrite Hsame, Hring; split; reflexivity].
    destruct (init_checks_pass n d c Hq Hd Hc Hsame Hring) as [H ->].
    split; reflexivity. }
  assert (Hkey : forall b : bool,
    (b = is_ValueError (create_key d c) ->
     b = negb (quiver_is (rep_quiver d) (rep_quiver c))
         || negb (ring_is (rep_base_ring d) (rep_base_ring c))) /\
    (b = is_TypeError (create_key d c) ->
     b = quiver_is (rep_quiver d) (rep_quiver c)
         && ring_is (rep_base_ring d) (rep_base_ring c)
         && (negb (made_by_factory d) || negb (made_by_factory c))) /\
    (b = raises (create_key d c) ->
     b = is_ValueError (create_key d c) || is_TypeError (create_key d c))).
  { intros b. unfold create_key, factory_data_2, made_by_factory.
    destruct (quiver_is _ _), (ring_is _ _), (_factory_data d),
      (_factory_data c); repeat split; intros ->; reflexivity. }
  split; [apply (Hkey _); reflexivity|].
  split; [apply (Hkey _); reflexivity|].
  split; [apply (Hkey _); reflexivity|].
  split; [|split; [|apply Hinit]].
  - intros e He. unfold QuiverHomSpace. rewrite He. reflexivity.
  - intros Hk Hgd Hgc Hsame Hring. unfold QuiverHomSpace.
    destruct (create_key d c) as [key|] eqn:Hkd; [|discriminate].
    destruct (create_key_Ok d c key Hkd) as (_ & _ & _ & _ & ->).
    unfold get_object, create_object. cbn [fst snd].
    destruct (cache st !! (rep_factory_key d, rep_factory_key c));
      [reflexivity|].
    rewrite Hgd, Hgc.
    destruct (init_checks_pass (next_id st) d c Hq Hd Hc Hsame Hring)
      as [H ->].
    reflexivity.
Qed.

(** ** Invariants of a hom space *)

Lemma init_Ok_inv {K : RingOps} self (d c : QuiverRep K) H :
  __init__ self d c = Ok H ->
  quiver_eq (rep_quiver d) (rep_quiver c) = true /\
  ring_eq (rep_base_ring c) (rep_base_ring d) = true /\
  exists st, coefficient_matrix d c = Ok st /\
    H = {| self_id := self; _quiver := rep_quiver d; _domain := d;
           _codomain := c; _space := kernel st.1;
           _base := rep_base_ring c; identity_bound := rep_is d c |}.
Proof.
  unfold __init__.
  destruct (quiver_eq _ _); [|discriminate].
  destruct (ring_eq _ _); [|discriminate]. cbn [negb].
  intros Hb. apply bind_Ok in Hb as (st & Hst & [= <-]). eauto.
Qed.

Lemma QuiverRepHom_Ok_inv {K : RingOps} (d c : QuiverRep K) data h :
  QuiverRepHom d c data = Ok h ->
  hom_quiver h = rep_quiver d /\ hom_domain h = d /\ hom_codomain h = c.
Proof.
  unfold QuiverRepHom. intros Hh. apply bind_Ok in Hh as (vec & _ & Hh).
  destruct (commutes d c vec); [|discriminate]. injection Hh as <-.
  repeat split.
Qed.

(** What the membership test answers for a homomorphism between the domain
    and the codomain of the hom space itself. *)
Lemma contains_own {K : RingOps} (self : nat) (d c : QuiverRep K) H h :
  __init__ self d c = Ok H ->
  hom_quiver h = rep_quiver d -> hom_domain h = d -> hom_codomain h = c ->
  __contains__ H (ObjHom h) = vec_in_space (_vector h) (_space H).
Proof.
  intros Hinit Hhq Hhd Hhc.
  apply init_Ok_inv in Hinit as (_ & _ & st & _ & ->).
  cbn [__contains__ _quiver _domain _codomain _space].
  rewrite Hhq, Hhd, Hhc. unfold rep_ne, rep_is. rewrite !Nat.eqb_refl.
  unfold quiver_eq. rewrite bool_decide_eq_true_2 by (split; reflexivity).
  reflexivity.
Qed.

(** C5: a constructed hom space has a domain and a codomain over equal
    quivers and equal base rings; [quiver()] and [base_ring()] return that
    quiver and ring, [domain()] and [codomain()] the representations given
    to the constructor.  The methods are functions of the object that return
    no new state (the source assigns to [self] in [__init__] only), and every
    homomorphism that [hom], the element constructor or [_identity] makes
    has the quiver, domain and codomain of the hom space. *)
Theorem hom_space_invariant {K : RingOps} self (d c : QuiverRep K) H :
  __init__ self d c = Ok H ->
  domain H = d /\ codomain H = c /\
  quiver H = rep_quiver (domain H) /\
  quiver_eq (quiver H) (rep_quiver (codomain H)) = true /\
  base_ring H = rep_base_ring (codomain H) /\
  ring_eq (base_ring H) (rep_base_ring (domain H)) = true /\
  forall h,
    (exists maps, hom H maps = Ok h) \/
    (exists data, _element_constructor_ H data = Ok h) \/
    _identity H = Ok h ->
    hom_quiver h = quiver H /\ hom_domain h = domain H
    /\ hom_codomain h = codomain H.
Proof.
  intros Hinit.
  apply init_Ok_inv in Hinit as (Hsame & Hring & st & _ & ->).
  unfold domain, codomain, quiver, base_ring, hom, _element_constructor_,
    _identity. cbn [_domain _codomain _quiver _base].
  repeat (split; [tauto|]).
  intros h [[maps Hh]|[[data Hh]|Hh]];
    exact (QuiverRepHom_Ok_inv _ _ _ _ Hh).
Qed.

(** ** Sums in the base ring *)

Declare Scope K_scope.

Section RingFacts.
Context {K : RingOps}.
Hypothesis Kring : ring_laws K.
Hypothesis Keqb : eqb_correct K.

Add Ring Kring_tac : (Kring : ring_theory (r0 K) (r1 K) (radd K) (rmul K)
                                (rsub K) (ropp K) eq).

Notation "0" := (r0 K) : K_scope.
Notation "1" := (r1 K) : K_scope.
Notation "x + y" := (radd K x y) : K_scope.
Notation "x * y" := (rmul K x y) : K_scope.
Notation "- x" := (ropp K x) : K_scope.
Delimit Scope K_scope with K.

Lemma reqb_refl (x : K) : reqb K x x = true.
Proof using Keqb. apply Keqb. reflexivity. Qed.

Lemma rsum_ext n (f g : nat -> K) :
  (forall k, k < n -> f k = g k) -> rsum K n f = rsum K n g.
Proof.
  induction n as [|n IH]; intros Hfg; simpl; [reflexivity|].
  rewrite IH, Hfg; [reflexivity | lia | intros k Hk; apply Hfg; lia].
Qed.

Lemma rsum_zero n (f : nat -> K) :
  (forall k, k < n -> f k = 0%K) -> rsum K n f = 0%K.
Proof using Kring.
  induction n as [|n IH]; intros Hf; simpl; [reflexivity|].
  rewrite IH, Hf; [ring | lia | intros k Hk; apply Hf; lia].
Qed.

(** A sum with a single term that is not zero. *)
Lemma rsum_single n (f : nat -> K) k0 :
  k0 < n -> (forall k, k < n -> k <> k0 -> f k = 0%K) ->
  rsum K n f = f k0.
Proof using Kring.
  induction n as [|n IH]; intros Hk0 Hf; [lia|]. simpl.
  destruct (decide (k0 = n)) as [->|Hne].
  - rewrite rsum_zero; [ring|]. intros k Hk. apply Hf; lia.
  - rewrite IH, (Hf n); [ring | lia | lia | lia |].
    intros k Hk Hkk. apply Hf; lia.
Qed.

(** *** Membership in the kernel *)

Lemma vec_in_space_iff (v : list K) (S : Space K) :
  vec_in_space v S = true <-> in_kernel v (space_matrix S).
Proof using Keqb.
  unfold vec_in_space, in_kernel.
  rewrite andb_true_iff, Nat.eqb_eq, forallb_forall. split.
  - intros [Hlen Hall]. split; [assumption|]. intros c Hc.
    apply Keqb, Hall. rewrite range_0. apply in_seq. lia.
  - intros [Hlen Hall]. split; [assumption|]. intros c Hc.
    rewrite range_0 in Hc. apply in_seq in Hc. apply Keqb, Hall. lia.
Qed.

(** C9: the membership test answers every argument: [False] for an argument
    that is no homomorphism; [False] for a homomorphism whose quiver is not
    equal to that of the hom space, or whose domain or codomain is another
    object than that of the hom space, be its data equal or not; and
    otherwise [True] exactly when the vector of the homomorphism lies in the
    kernel space, that is, has the length of the ambient space and is
    annihilated by the coefficient matrix. *)
Theorem contains_spec (H : HomSpace K) :
  (forall data, __contains__ H (ObjData data) = false) /\
  (forall rep, __contains__ H (ObjRep rep) = false) /\
  (forall h,
     quiver_eq (_quiver H) (hom_quiver h) = false \/
     rep_is (_domain H) (hom_domain h) = false \/
     rep_is (_codomain H) (hom_codomain h) = false ->
     __contains__ H (ObjHom h) = false) /\
  (forall h,
     quiver_eq (_quiver H) (hom_quiver h) = true ->
     rep_is (_domain H) (hom_domain h) = true ->
     rep_is (_codomain H) (hom_codomain h) = true ->
     (__contains__ H (ObjHom h) = true
      <-> in_kernel (_vector h) (space_matrix (_space H)))).
Proof using Keqb.
  split; [reflexivity|]. split; [reflexivity|]. split.
  - intros h [Hne|[Hne|Hne]]; simpl; unfold rep_ne; rewrite Hne; simpl;
      rewrite ?orb_true_r; reflexivity.
  - intros h Hq Hd Hc. simpl. unfold rep_ne. rewrite Hq, Hd, Hc. simpl.
    apply vec_in_space_iff.
Qed.

(** *** The zero homomorphism *)

Lemma vget_replicate_0 n r : vget (replicate n (r0 K)) r = 0%K.
Proof.
  unfold vget. rewrite nth_lookup.
  destruct (replicate n (r0 K) !! r) eqn:Hl; [|reflexivity].
  apply lookup_replicate in Hl as [-> _]. reflexivity.
Qed.

Lemma dict_vector_empty (d c : QuiverRep K) verts :
  dict_vector d c ∅ verts = Ok (replicate (total_dim d c verts) 0%K).
Proof.
  unfold total_dim. induction verts as [|v verts IH]; simpl; [reflexivity|].
  rewrite IH. cbn [bind]. rewrite lookup_empty.
  rewrite replicate_add. reflexivity.
Qed.

Lemma commutes_zero (d c : QuiverRep K) n :
  commutes d c (replicate n 0%K) = true.
Proof using Kring Keqb.
  unfold commutes. apply forallb_forall. intros e _.
  unfold edge_commutes. apply forallb_forall. intros i _.
  apply forallb_forall. intros j _. apply Keqb.
  unfold mat_mul_entry. simpl.
  rewrite !rsum_zero; [reflexivity| |]; intros k _;
    rewrite vget_replicate_0; ring.
Qed.

(** C8: [H()], [H(None)] and [H(0)] all return the zero homomorphism: the
    element constructor replaces [None] and [0] by the empty dictionary,
    for which every vertex gets the zero map. *)
Theorem element_constructor_zero (H : HomSpace K) :
  call_no_argument H = Ok (zero_hom (_domain H) (_codomain H)) /\
  _element_constructor_ H DNone = Ok (zero_hom (_domain H) (_codomain H)) /\
  _element_constructor_ H (DInt 0) = Ok (zero_hom (_domain H) (_codomain H)) /\
  _element_constructor_ H DNone = QuiverRepHom (_domain H) (_codomain H) (DDict ∅) /\
  _element_constructor_ H (DInt 0) = QuiverRepHom (_domain H) (_codomain H) (DDict ∅) /\
  forall v i k,
    entry (get_matrix (_domain H) (_codomain H)
             (_vector (zero_hom (_domain H) (_codomain H))) v) i k = 0%K.
Proof using Kring Keqb.
  assert (Hz : QuiverRepHom (_domain H) (_codomain H) (DDict ∅)
               = Ok (zero_hom (_domain H) (_codomain H))).
  { unfold QuiverRepHom. rewrite dict_vector_empty. cbn [bind].
    rewrite commutes_zero. reflexivity. }
  unfold call_no_argument, _element_constructor_. simpl.
  repeat split; try exact Hz.
  intros v i k. apply vget_replicate_0.
Qed.

(** *** Writes into a column and the product [v * M] *)

Lemma rsum_update n (f : nat -> K) k0 a :
  k0 < n ->
  rsum K n (fun k => if Nat.eqb k k0 then a else f k)
  = (rsum K n f + (a + - f k0))%K.
Proof using Kring.
  induction n as [|n IH]; intros Hk0; [lia|]. simpl.
  destruct (Nat.eqb_spec n k0) as [->|Hne].
  - rewrite (rsum_ext k0 _ f).
    + ring.
    + intros k Hk. destruct (Nat.eqb_spec k k0); [lia | reflexivity].
  - rewrite IH by lia. ring.
Qed.

Lemma dot_mat_put (v : list K) (M : Matrix K) r c x :
  r < nrows M ->
  dot v (mat_put M r c x) c
  = (dot v M c + vget v r * (x + - entry M r c))%K.
Proof using Kring.
  intros Hr. unfold dot. simpl.
  rewrite (rsum_ext (nrows M) _
    (fun r' => if Nat.eqb r' r then (vget v r * x)%K
               else (vget v r' * entry M r' c)%K)).
  - rewrite rsum_update by assumption. ring.
  - intros r' _. rewrite Nat.eqb_refl, andb_true_r.
    destruct (Nat.eqb_spec r' r) as [->|_]; reflexivity.
Qed.

Lemma wsum_app (v : list K) ws1 ws2 :
  wsum v (ws1 ++ ws2) = (wsum v ws1 + wsum v ws2)%K.
Proof using Kring.
  unfold wsum. induction ws1 as [|w ws1 IH]; simpl; [ring|].
  rewrite IH. ring.
Qed.

Lemma wsum_map_seq (v : list K) (row : nat -> nat) (g : nat -> K) n :
  wsum v (map (fun k => (row k, g k)) (seq 0 n))
  = rsum K n (fun k => vget v (row k) * g k)%K.
Proof using Kring.
  induction n as [|n IH]; [reflexivity|].
  rewrite seq_S, map_app, wsum_app, IH. simpl. ring.
Qed.

Lemma dot_apply_writes (v : list K) c ws (M : Matrix K) :
  NoDup (map fst ws) ->
  (forall w, w ∈ ws -> w.1 < nrows M) ->
  (forall w, w ∈ ws -> entry M w.1 c = 0%K) ->
  dot v (apply_writes c ws M) c = (dot v M c + wsum v ws)%K.
Proof using Kring.
  unfold apply_writes. revert M.
  induction ws as [|[r x] ws IH]; intros M Hnd Hrows Hzero; simpl.
  - ring.
  - simpl in Hnd. apply NoDup_cons in Hnd as [Hr Hnd].
    rewrite IH; [|assumption| |].
    + rewrite dot_mat_put by (apply (Hrows (r, x)); left).
      pose proof (Hzero (r, x) ltac:(left)) as Hz. simpl in Hz.
      simpl. rewrite Hz. ring.
    + intros w Hw. simpl. apply Hrows. right. assumption.
    + intros w Hw. simpl.
      destruct (Nat.eqb_spec w.1 r) as [Heq|_].
      * exfalso. apply Hr. rewrite <- Heq.
        apply list_elem_of_In, in_map, list_elem_of_In. assumption.
      * simpl. apply Hzero. right. assumption.
Qed.

(** *** The columns of the coefficient matrix *)

Lemma dot_ext (v : list K) (M N : Matrix K) c :
  nrows M = nrows N -> (forall r, entry M r c = entry N r c) ->
  dot v M c = dot v N c.
Proof.
  intros Hr He. unfold dot. rewrite Hr. apply rsum_ext.
  intros r _. rewrite He. reflexivity.
Qed.

Lemma dot_zero_column (v : list K) (M : Matrix K) c :
  (forall r, entry M r c = 0%K) -> dot v M c = 0%K.
Proof using Kring.
  intros Hz. unfold dot. apply rsum_zero. intros r _. rewrite Hz. ring.
Qed.

(** Column [m] of the finished matrix holds the writes of iteration [m]
    alone, provided these hit pairwise distinct rows inside the matrix. *)
Lemma dot_fill_pure (v : list K) (d c : QuiverRep K) verts eqs rows cols
    m eq :
  eqs !! m = Some eq ->
  NoDup (map fst (equation_writes d c verts eq)) ->
  (forall w, w ∈ equation_writes d c verts eq -> w.1 < rows) ->
  dot v (fill_pure d c verts eqs (Matrix_zero K rows cols, 0)).1 m
  = wsum v (equation_writes d c verts eq).
Proof using Kring.
  intros Hm Hnd Hrows.
  set (start := (Matrix_zero K rows cols, 0)).
  rewrite <- (take_drop_middle _ _ _ Hm).
  rewrite fill_pure_app.
  change (eq :: drop (S m) eqs) with ([eq] ++ drop (S m) eqs).
  rewrite fill_pure_app.
  set (st1 := fill_pure d c verts (take m eqs) start).
  assert (Hst1 : st1.2 = m).
  { unfold st1. rewrite fill_pure_snd, length_take. simpl.
    apply lookup_lt_Some in Hm. lia. }
  destruct (fill_pure_shape d c verts (take m eqs) start) as [Hr1 _].
  fold st1 in Hr1. simpl in Hr1.
  set (st2 := fill_pure d c verts [eq] st1).
  destruct (fill_pure_shape d c verts (drop (S m) eqs) st2) as [Hr2 _].
  rewrite (dot_ext v _ st2.1 m Hr2).
  2:{ intros r. apply fill_pure_other_columns. left.
      unfold st2. rewrite fill_pure_snd. simpl. lia. }
  unfold st2, fill_pure. simpl. rewrite Hst1.
  rewrite dot_apply_writes.
  - rewrite dot_zero_column; [ring|]. intros r. unfold st1.
    rewrite fill_pure_other_columns; [reflexivity|].
    right. simpl. rewrite length_take. lia.
  - assumption.
  - intros w Hw. rewrite Hr1. apply Hrows. assumption.
  - intros w Hw. unfold st1.
    rewrite fill_pure_other_columns; [reflexivity|].
    right. simpl. rewrite length_take. lia.
Qed.

Lemma equation_writes_rows (d c : QuiverRep K) eq :
  quiver_wf (rep_quiver d) -> rep_wf d -> rep_wf c ->
  quiver_eq (rep_quiver d) (rep_quiver c) = true ->
  loop_free (rep_quiver d) ->
  eq ∈ equations d c ->
  NoDup (map fst (equation_writes d c (vertices (rep_quiver d)) eq)) /\
  forall w, w ∈ equation_writes d c (vertices (rep_quiver d)) eq ->
    w.1 < sum_list (vertex_dims d c (vertices (rep_quiver d))).
Proof.
  intros Hq Hd Hc Hsame Hloop Heq. destruct eq as [[e i] j].
  apply elem_of_equations in Heq as (He & Hi & Hj).
  destruct (wf_shapes d c Hq Hd Hc Hsame e He)
    as (HXr & HXc & HYr & HYc & Hv0 & Hv1).
  pose proof (var_offset_bound d c _ _ Hv0) as Hb0.
  pose proof (var_offset_bound d c _ _ Hv1) as Hb1.
  pose proof (var_offset_disjoint d c _ _ _ Hv0 Hv1 (Hloop e He)) as Hdis.
  set (verts := vertices (rep_quiver d)) in *.
  set (os := var_offset d c verts (e0 e)) in *.
  set (ot := var_offset d c verts (e1 e)) in *.
  assert (Hsrc : forall k, k < nrows (rep_maps c e) ->
            os + i * nrows (rep_maps c e) + k
            < os + dim d (e0 e) * dim c (e0 e)).
  { intros k Hk. rewrite HYr in *. rewrite HXr in Hi.
    pose proof (index_in_block i k _ _ Hi Hk). lia. }
  assert (Htgt : forall k, k < ncols (rep_maps d e) ->
            ot + k * ncols (rep_maps c e) + j
            < ot + dim d (e1 e) * dim c (e1 e)).
  { intros k Hk. rewrite HYc in *. rewrite HXc in Hk.
    pose proof (index_in_block k j _ _ Hk Hj). lia. }
  unfold equation_writes, source_writes, target_writes. cbn [fst snd].
  split.
  - rewrite map_app, !map_map. cbn [fst]. apply NoDup_app. repeat split.
    + apply (NoDup_fmap_2_strong
               (fun k => os + i * nrows (rep_maps c e) + k));
        [|apply NoDup_seq].
      intros k k' _ _ Hkk. lia.
    + intros x Hx Hx'.
      apply list_elem_of_In, in_map_iff in Hx as (k & <- & Hk).
      apply list_elem_of_In, in_map_iff in Hx' as (k' & Hkk & Hk').
      apply in_seq in Hk, Hk'.
      specialize (Hsrc k ltac:(lia)). specialize (Htgt k' ltac:(lia)).
      lia.
    + apply (NoDup_fmap_2_strong
               (fun k => ot + k * ncols (rep_maps c e) + j));
        [|apply NoDup_seq].
      intros k k' _ _ Hkk. nia.
  - intros w Hw. apply elem_of_app in Hw as [Hw|Hw];
      apply list_elem_of_In, in_map_iff in Hw as (k & <- & Hk);
      apply in_seq in Hk; cbn [fst].
    + specialize (Hsrc k ltac:(lia)). lia.
    + specialize (Htgt k ltac:(lia)). lia.
Qed.

Lemma rsum_opp_comm n (a b : nat -> K) :
  rsum K n (fun k => a k * - b k)%K = (- rsum K n (fun k => b k * a k))%K.
Proof using Kring.
  induction n as [|n IH]; simpl; [ring|]. rewrite IH. ring.
Qed.

(** The writes of one iteration spell entry (i, j) of [A*Y - X*B]. *)
Lemma wsum_equation (v : list K) (d c : QuiverRep K) e i j :
  quiver_wf (rep_quiver d) -> rep_wf d -> rep_wf c ->
  quiver_eq (rep_quiver d) (rep_quiver c) = true ->
  e ∈ edges (rep_quiver d) ->
  wsum v (equation_writes d c (vertices (rep_quiver d)) (e, i, j))
  = (mat_mul_entry (get_matrix d c v (e0 e)) (rep_maps c e) i j
     + - mat_mul_entry (rep_maps d e) (get_matrix d c v (e1 e)) i j)%K.
Proof using Kring.
  intros Hq Hd Hc Hsame He.
  destruct (wf_shapes d c Hq Hd Hc Hsame e He)
    as (HXr & HXc & HYr & HYc & Hv0 & Hv1).
  unfold equation_writes, source_writes, target_writes. cbn [fst snd].
  rewrite wsum_app.
  rewrite (wsum_map_seq v
    (fun k => var_offset d c (vertices (rep_quiver d)) (e0 e)
              + i * nrows (rep_maps c e) + k)
    (fun k => entry (rep_maps c e) k j)).
  rewrite (wsum_map_seq v
    (fun k => var_offset d c (vertices (rep_quiver d)) (e1 e)
              + k * ncols (rep_maps c e) + j)
    (fun k => ropp K (entry (rep_maps d e) i k))).
  rewrite rsum_opp_comm.
  unfold mat_mul_entry. simpl. rewrite HYr, HYc. reflexivity.
Qed.

Lemma sub_zero_iff (x y : K) : (x + - y)%K = 0%K <-> x = y.
Proof using Kring.
  split; intros Hxy.
  - replace x with ((x + - y) + y)%K by ring. rewrite Hxy. ring.
  - rewrite Hxy. ring.
Qed.

(** On a quiver without loops the kernel of the coefficient matrix is the
    space of all homomorphisms: a vector of the ambient space lies in it
    exactly when the vertex maps it stands for commute with every edge
    map. *)
Lemma kernel_is_hom_space_loop_free self (d c : QuiverRep K) H :
  quiver_wf (rep_quiver d) -> rep_wf d -> rep_wf c ->
  loop_free (rep_quiver d) ->
  __init__ self d c = Ok H ->
  forall v,
    vec_in_space v (_space H) = true
    <-> length v = total_dim d c (vertices (rep_quiver d))
        /\ commutes d c v = true.
Proof using Kring Keqb.
  intros Hq Hd Hc Hloop Hinit v.
  apply init_Ok_inv in Hinit as (Hsame & _ & st & Hst & ->).
  rewrite (coefficient_matrix_Ok d c Hq Hd Hc Hsame) in Hst.
  injection Hst as <-. cbn [_space kernel].
  rewrite vec_in_space_iff. unfold in_kernel, kernel. cbn [space_matrix].
  set (rows := sum_list (vertex_dims d c (vertices (rep_quiver d)))).
  set (cols := sum_list (edge_dims d c (edges (rep_quiver d)))).
  destruct (fill_pure_shape d c (vertices (rep_quiver d)) (equations d c)
              (Matrix_zero K rows cols, 0)) as [-> ->]. simpl.
  pose proof (length_equations d c Hq Hd Hc Hsame) as Hlen.
  fold cols in Hlen.
  assert (Hcol : forall m eq, equations d c !! m = Some eq ->
            dot v (fill_pure d c (vertices (rep_quiver d)) (equations d c)
                     (Matrix_zero K rows cols, 0)).1 m
            = wsum v (equation_writes d c (vertices (rep_quiver d)) eq)).
  { intros m eq Hm.
    destruct (equation_writes_rows d c eq Hq Hd Hc Hsame Hloop) as [Hnd Hrw].
    { eapply list_elem_of_lookup_2. exact Hm. }
    apply dot_fill_pure; assumption. }
  unfold total_dim. fold (vertex_dims d c (vertices (rep_quiver d))). fold rows.
  split; intros [Hl Hall]; (split; [assumption|]).
  - unfold commutes. apply forallb_forall. intros e He.
    apply list_elem_of_In in He.
    unfold edge_commutes. apply forallb_forall. intros i Hi.
    apply forallb_forall. intros j Hj.
    rewrite range_0 in Hi, Hj. apply in_seq in Hi, Hj.
    apply Keqb, sub_zero_iff.
    rewrite <- (wsum_equation v d c e i j Hq Hd Hc Hsame He).
    assert (Hin : (e, i, j) ∈ equations d c).
    { apply elem_of_equations. split; [assumption | lia]. }
    apply list_elem_of_lookup_1 in Hin as [m Hm].
    rewrite <- (Hcol m _ Hm). apply Hall.
    rewrite <- Hlen. eapply lookup_lt_Some. exact Hm.
  - intros m Hm. rewrite <- Hlen in Hm.
    apply lookup_lt_is_Some_2 in Hm as [[[e i] j] Heq].
    rewrite (Hcol m _ Heq).
    apply list_elem_of_lookup_2, elem_of_equations in Heq as (He & Hi & Hj).
    rewrite (wsum_equation v d c e i j Hq Hd Hc Hsame He).
    apply sub_zero_iff, Keqb.
    unfold commutes in Hall.
    rewrite forallb_forall in Hall.
    specialize (Hall e ltac:(apply list_elem_of_In; assumption)).
    unfold edge_commutes in Hall. rewrite forallb_forall in Hall.
    specialize (Hall i ltac:(rewrite range_0; apply in_seq; lia)).
    rewrite forallb_forall in Hall.
    apply Hall. rewrite range_0. apply in_seq. lia.
Qed.
End RingFacts.

(** ** The factory *)

(** C6: a call of the factory that returns a hom space leaves it in the cache
    under the key made of the keys of domain and codomain, so that a second
    call with the same domain and codomain returns that very object (the same
    address, no new object is made); the key is a function of the two
    representations alone. *)
Theorem factory_caches {K : RingOps} (get : RepKey -> QuiverRep K)
    (st st1 : FactoryState) (d c : QuiverRep K) (H : HomSpace K) :
  QuiverHomSpace get st d c = (Ok H, st1) ->
  create_key d c = Ok (rep_factory_key d, rep_factory_key c) /\
  cache st1 !! (rep_factory_key d, rep_factory_key c) = Some H /\
  QuiverHomSpace get st1 d c = (Ok H, st1).
Proof.
  unfold QuiverHomSpace. intros Hcall.
  assert (Hkey : create_key d c = Ok (rep_factory_key d, rep_factory_key c)).
  { destruct (create_key d c) as [key|] eqn:Hk; [|discriminate].
    destruct (create_key_Ok d c key Hk) as (_ & _ & _ & _ & ->).
    reflexivity. }
  split; [exact Hkey|]. rewrite Hkey in *. unfold get_object in *.
  destruct (cache st !! (rep_factory_key d, rep_factory_key c)) as [H0|] eqn:Hc.
  - injection Hcall as <- <-. rewrite Hc. split; reflexivity.
  - destruct (create_object get (next_id st) _) as [H1|e]; [|discriminate].
    injection Hcall as <- <-. cbn [cache].
    rewrite lookup_insert_eq. split; reflexivity.
Qed.

(** ** The sample representations *)

Lemma ZRing_laws : ring_laws ZRing.
Proof.
  unfold ring_laws. constructor; simpl; intros; unfold rsub; simpl; lia.
Qed.

Lemma ZRing_eqb : eqb_correct ZRing.
Proof. intros x y. apply Z.eqb_eq. Qed.

Lemma kronecker_wf : quiver_wf kronecker.
Proof.
  split.
  - apply NoDup_ListNoDup. repeat constructor; simpl; intuition lia.
  - intros e He. simpl in He.
    repeat (apply elem_of_cons in He as [->|He]); try (inversion He; fail);
      split; simpl; set_solver.
Qed.

Lemma loop_quiver_wf : quiver_wf loop_quiver.
Proof.
  split.
  - apply NoDup_ListNoDup. repeat constructor; simpl; intuition lia.
  - intros e He. simpl in He.
    repeat (apply elem_of_cons in He as [->|He]); try (inversion He; fail);
      split; simpl; set_solver.
Qed.

Lemma kronecker_loop_free : loop_free kronecker.
Proof.
  intros e He. simpl in He.
  repeat (apply elem_of_cons in He as [->|He]); try (inversion He; fail);
    unfold e0, e1; simpl; lia.
Qed.

Lemma simple_2_wf id R : rep_wf (simple_2 id kronecker R).
Proof.
  intros e He. simpl in He.
  repeat (apply elem_of_cons in He as [->|He]); try (inversion He; fail);
    split; reflexivity.
Qed.

Lemma projective_1_wf id R : rep_wf (projective_1 id kronecker R).
Proof.
  intros e He. simpl in He.
  repeat (apply elem_of_cons in He as [->|He]); try (inversion He; fail);
    split; reflexivity.
Qed.

Lemma loop_rep_wf id x : rep_wf (loop_rep id x).
Proof.
  intros e He. simpl in He.
  repeat (apply elem_of_cons in He as [->|He]); try (inversion He; fail);
    split; reflexivity.
Qed.

(** ** A quiver with a loop *)

(** C1: on the quiver with one vertex and one loop the kernel is not the
    space of homomorphisms.  For [M] with the loop map [1] the only equation
    is [A*1 - 1*A = 0], but the write of [-X[0,0]] lands on the entry that
    holds [Y[0,0]], so the coefficient is [-1]: the identity commutes with the
    loop and is not in the kernel.  For loop maps [0] on the domain and [1] on
    the codomain the coefficient is [0] instead of [1]: the vector [(1)] is in
    the kernel and does not commute. *)
Theorem loop_kernel_is_not_hom_space :
  (exists H, __init__ 0 (loop_rep 1 1) (loop_rep 1 1) = Ok H /\
     entry (space_matrix (_space H)) 0 0 = (-1)%Z /\
     commutes (loop_rep 1 1) (loop_rep 1 1) one_vector = true /\
     vec_in_space one_vector (_space H) = false) /\
  (exists H, __init__ 0 (loop_rep 1 0) (loop_rep 2 1) = Ok H /\
     entry (space_matrix (_space H)) 0 0 = 0%Z /\
     commutes (loop_rep 1 0) (loop_rep 2 1) one_vector = false /\
     vec_in_space one_vector (_space H) = true).
Proof.
  split; (eexists; split; [reflexivity|]); vm_compute; repeat split.
Qed.

(** C4: for the representation [M] of the quiver with one loop whose loop
    map is [1], the hom space from [M] to [M] has the attribute [identity],
    [identity()] returns the identity map, with vector [(1)], and the
    membership test answers [False] for it. *)
Theorem loop_identity_not_contained :
  exists H f h,
    __init__ 0 (loop_rep 1 1) (loop_rep 1 1) = Ok H /\
    identity H = Ok f /\ f tt = Ok h /\
    _vector h = one_vector /\
    vec_in_space (_vector h) (_space H) = false /\
    __contains__ H (ObjHom h) = false.
Proof.
  eexists. eexists. eexists.
  split; [reflexivity|]. split; [reflexivity|]. split; [reflexivity|].
  vm_compute. repeat split.
Qed.

(** C2, the claim as stated fails: the domain is a representation that no
    factory made, over the very same quiver and base ring as the codomain.
    Quivers and base rings match, and the call of the factory raises all the
    same, with a [TypeError], which is no [ValueError] and comes from none of
    the checks; the constructor called directly raises nothing. *)
Lemma direct_representation_TypeError :
  let d := simple_2_direct 1 kronecker ZZ in
  let c := projective_1 2 kronecker ZZ in
  quiver_is (rep_quiver d) (rep_quiver c) = true /\
  quiver_eq (rep_quiver d) (rep_quiver c) = true /\
  ring_is (rep_base_ring d) (rep_base_ring c) = true /\
  ring_eq (rep_base_ring c) (rep_base_ring d) = true /\
  (QuiverHomSpace sample_get empty_factory d c).1 = Raise TypeError /\
  is_ValueError (QuiverHomSpace sample_get empty_factory d c).1 = false /\
  raises (__init__ 0 d c) = false /\
  ~ (raises (QuiverHomSpace sample_get empty_factory d c).1 = true
     <-> negb (quiver_eq (rep_quiver d) (rep_quiver c))
         || negb (ring_eq (rep_base_ring c) (rep_base_ring d)) = true).
Proof.
  vm_compute. repeat split. intros [Hf _]. specialize (Hf eq_refl).
  discriminate.
Qed.

(** ** The theorems at the sample representations *)

Lemma construction_errors_witness :
  quiver_wf kronecker /\
  rep_wf (simple_2 1 kronecker ZZ) /\
  rep_wf (projective_1 2 kronecker ZZ) /\
  raises (create_key (simple_2 1 kronecker ZZ) (projective_1 2 kronecker ZZ))
  = false /\
  raises (QuiverHomSpace sample_get empty_factory
            (simple_2 1 kronecker ZZ) (projective_1 2 kronecker ZZ)).1
  = false /\
  raises (__init__ 7 (simple_2 1 kronecker ZZ) (projective_1 2 kronecker ZZ))
  = false.
Proof.
  pose proof (construction_errors sample_get empty_factory 7
                (simple_2 1 kronecker ZZ) (projective_1 2 kronecker ZZ)
                kronecker_wf (simple_2_wf 1 ZZ) (projective_1_wf 2 ZZ))
    as (Hv & Ht & Hr & _ & Hf & Hi & Hi').
  split; [exact kronecker_wf|]. split; [exact (simple_2_wf 1 ZZ)|].
  split; [exact (projective_1_wf 2 ZZ)|].
  assert (Hkey : raises (create_key (simple_2 1 kronecker ZZ)
                           (projective_1 2 kronecker ZZ)) = false)
    by (rewrite Hr, Hv, Ht; reflexivity).
  split; [exact Hkey|]. split.
  - exact (Hf Hkey eq_refl eq_refl eq_refl eq_refl).
  - rewrite Hi', Hi. reflexivity.
Defined.

Lemma coefficient_matrix_shape_witness :
  quiver_wf kronecker /\
  rep_wf (projective_1 2 kronecker ZZ) /\
  quiver_eq kronecker kronecker = true /\
  exists cm,
    coefficient_matrix (projective_1 2 kronecker ZZ)
                       (projective_1 2 kronecker ZZ) = Ok (cm, 4) /\
    nrows cm = 5 /\ ncols cm = 4 /\
    entry cm 0 0 = 1%Z /\ entry cm 1 0 = (-1)%Z /\ entry cm 2 0 = 0%Z.
Proof.
  split; [exact kronecker_wf|]. split; [exact (projective_1_wf 2 ZZ)|].
  split; [reflexivity|].
  destruct (coefficient_matrix_shape (projective_1 2 kronecker ZZ)
              (projective_1 2 kronecker ZZ) kronecker_wf
              (projective_1_wf 2 ZZ) (projective_1_wf 2 ZZ) eq_refl)
    as (cm & Hcm & Hr & Hc & _ & _ & Hit).
  exists cm. split; [exact Hcm|]. split; [exact Hr|]. split; [exact Hc|].
  pose proof (Hit 0 (1, 2, "a") 0 0 eq_refl) as Hit0. cbv zeta in Hit0.
  destruct Hit0
    as (st & st' & _ & _ & _ & _ & _ & _ & Htgt & Hsrc & Hrest & _ & Hfin).
  rewrite !Hfin. split; [|split].
  - apply (Hsrc 0); [simpl; lia|]. intros k' Hk'. vm_compute. lia.
  - apply (Htgt 0). simpl. lia.
  - apply (Hrest 2).
    + intros k Hk. simpl in Hk. vm_compute. lia.
    + intros k Hk. simpl in Hk.
      assert (k = 0 \/ k = 1) as [-> | ->] by lia; vm_compute; lia.
Defined.

Lemma hom_space_invariant_witness :
  exists H,
    __init__ 7 (simple_2 1 kronecker ZZ) (projective_1 2 kronecker ZZ) = Ok H /\
    domain H = simple_2 1 kronecker ZZ /\
    codomain H = projective_1 2 kronecker ZZ /\
    quiver H = kronecker /\ base_ring H = ZZ.
Proof.
  eexists. split; [reflexivity|].
  destruct (hom_space_invariant 7 (simple_2 1 kronecker ZZ)
              (projective_1 2 kronecker ZZ) _ eq_refl)
    as (Hd & Hc & Hq & _ & Hb & _).
  split; [exact Hd|]. split; [exact Hc|]. split; [exact Hq | exact Hb].
Defined.

Lemma factory_caches_witness :
  exists H st1,
    QuiverHomSpace sample_get empty_factory
      (simple_2 1 kronecker ZZ) (projective_1 2 kronecker ZZ) = (Ok H, st1) /\
    QuiverHomSpace sample_get st1
      (simple_2 1 kronecker ZZ) (projective_1 2 kronecker ZZ) = (Ok H, st1).
Proof.
  eexists. eexists. split; [reflexivity|].
  destruct (factory_caches sample_get empty_factory _
              (simple_2 1 kronecker ZZ) (projective_1 2 kronecker ZZ) _
              eq_refl) as (_ & _ & H2).
  exact H2.
Defined.

Lemma sample_space_init :
  __init__ 7 (simple_2 1 kronecker ZZ) (projective_1 2 kronecker ZZ)
  = Ok sample_space.
Proof. reflexivity. Qed.

Lemma element_constructor_zero_witness :
  ring_laws ZRing /\ eqb_correct ZRing /\
  call_no_argument sample_space
  = Ok (zero_hom (simple_2 1 kronecker ZZ) (projective_1 2 kronecker ZZ)) /\
  _vector (zero_hom (simple_2 1 kronecker ZZ) (projective_1 2 kronecker ZZ))
  = [0%Z; 0%Z].
Proof.
  split; [exact ZRing_laws|]. split; [exact ZRing_eqb|].
  destruct (element_constructor_zero ZRing_laws ZRing_eqb sample_space)
    as (Hcall & _).
  split; [exact Hcall | reflexivity].
Defined.

Lemma contains_spec_witness :
  eqb_correct ZRing /\
  __contains__ sample_space
    (ObjHom (zero_hom (simple_2 1 kronecker ZZ) (projective_1 2 kronecker ZZ)))
  = true /\
  __contains__ sample_space (ObjData (DInt 0)) = false.
Proof.
  split; [exact ZRing_eqb|].
  destruct (contains_spec ZRing_eqb sample_space) as (Hdata & _ & _ & Hin).
  split; [|exact (Hdata (DInt 0))].
  apply (Hin (zero_hom (simple_2 1 kronecker ZZ)
                       (projective_1 2 kronecker ZZ)));
    try reflexivity.
  split; [reflexivity|]. simpl. intros c Hc. lia.
Defined.

(** ** Generators on the quiver with a loop *)

Lemma vget_unit_list (K : RingOps) n i j :
  vget (unit_list K n i) j
  = if decide (j < n) then (if Nat.eqb j i then r1 K else r0 K) else r0 K.
Proof.
  unfold vget, unit_list. rewrite nth_lookup, lookup_tabulate.
  destruct (decide (j < n)); reflexivity.
Qed.

Lemma length_unit_list (K : RingOps) n i : length (unit_list K n i) = n.
Proof. unfold unit_list. rewrite length_map, length_seq. reflexivity. Qed.

(** C7: for the loop maps [0] on the domain and [1] on the codomain the
    coefficient matrix is [(0)], so the kernel is all of [ZZ^1] and has
    dimension one with any basis the library returns, while no vector but
    zero commutes with the loops: [gens()] raises the [ValueError] of
    [QuiverRepHom] on the first generator. *)
Theorem loop_gens_raises (L : LinAlg ZRing) (H : HomSpace ZRing) :
  __init__ 0 (loop_rep 1 0) (loop_rep 2 1) = Ok H ->
  is_basis L (_space H) ->
  1 <= dimension L H /\ is_ValueError (gens L H) = true.
Proof.
  intros Hinit Hbasis.
  apply init_Ok_inv in Hinit as (_ & _ & st & Hst & ->).
  assert (Hfacts : nrows st.1 = 1 /\ ncols st.1 = 1
                   /\ entry st.1 0 0 = 0%Z).
  { vm_compute in Hst. injection Hst as <-. repeat split. }
  clear Hst. destruct Hfacts as (Hr & Hc & Hz).
  destruct Hbasis as (Hin & Hspan & Hind).
  unfold dimension, gens. cbn [_space _domain _codomain] in *.
  assert (Hone : vec_in_space one_vector (kernel st.1) = true).
  { unfold vec_in_space, dot. simpl. rewrite Hr, Hc. simpl.
    rewrite Hz. reflexivity. }
  destruct (space_gens L (kernel st.1)) as [|g0 rest] eqn:Hgs.
  - exfalso. destruct (Hspan one_vector Hone) as (cs & _ & Hcs).
    specialize (Hcs 0 ltac:(simpl; lia)). vm_compute in Hcs. discriminate.
  - split; [simpl; lia|].
    assert (Hg0 : vec_in_space g0 (kernel st.1) = true) by (apply Hin; left).
    unfold vec_in_space in Hg0. apply andb_true_iff in Hg0 as [Hlen _].
    apply Nat.eqb_eq in Hlen. simpl in Hlen. rewrite Hr in Hlen.
    destruct g0 as [|x [|? ?]]; try discriminate. clear Hlen.
    assert (Hx : x <> 0%Z).
    { intros ->.
      specialize (Hind (unit_list ZRing (S (length rest)) 0)).
      assert (Hu : vget (unit_list ZRing (S (length rest)) 0) 0 = 0%Z).
      { apply Hind; [|rewrite length_unit_list; lia].
        split; [rewrite length_unit_list; reflexivity|].
        intros r Hr'. simpl in Hr'. rewrite Hr in Hr'.
        assert (r = 0) as -> by lia. simpl. rewrite Hr. simpl.
        unfold lincomb_entry. symmetry.
        apply (rsum_zero ZRing_laws). intros k Hk.
        rewrite vget_unit_list. simpl in Hk.
        case_decide; [|lia].
        destruct k as [|k]; reflexivity. }
      rewrite vget_unit_list in Hu. simpl in Hu. discriminate. }
    assert (Hcomm : commutes (loop_rep 1 0) (loop_rep 2 1) [x] = false).
    { unfold commutes, edge_commutes, mat_mul_entry. simpl.
      unfold vget. simpl.
      destruct (Z.eqb_spec (0 + x * 1) (0 + 0 * x)) as [Heq|_]; [lia|].
      reflexivity. }
    cbn [comprehension]. unfold QuiverRepHom at 1.
    destruct (decide _) as [_|Hne]; [|exfalso; apply Hne; reflexivity].
    cbn [bind]. rewrite Hcomm. reflexivity.
Qed.

Lemma line_library_basis (M : Matrix ZRing) :
  nrows M = 1 -> (forall c, entry M 0 c = 0%Z) ->
  is_basis line_library (kernel M).
Proof.
  intros Hr Hz. unfold is_basis. simpl. repeat split.
  - intros g Hg. apply list_elem_of_singleton in Hg as ->.
    unfold vec_in_space. simpl. rewrite Hr. simpl.
    apply forallb_forall. intros c _. unfold dot. rewrite Hr. simpl.
    rewrite Hz. reflexivity.
  - intros v Hv. exists v. unfold vec_in_space in Hv.
    apply andb_true_iff in Hv as [Hlen _]. apply Nat.eqb_eq in Hlen.
    simpl in Hlen. rewrite Hr in Hlen.
    destruct v as [|x [|? ?]]; try discriminate.
    split; [reflexivity|]. intros r Hr'. simpl in Hr'. rewrite Hr in Hr'.
    assert (r = 0) as -> by lia. unfold lincomb_entry, vget. simpl. lia.
  - intros cs [Hlen Hcs] i Hi. simpl in Hlen.
    destruct cs as [|x [|? ?]]; try discriminate.
    assert (i = 0) as -> by (simpl in Hi; lia).
    specialize (Hcs 0 ltac:(simpl; lia)). simpl in Hcs. rewrite Hr in Hcs.
    unfold lincomb_entry, vget in *. simpl in *. lia.
Qed.

Lemma loop_gens_raises_witness :
  exists H,
    __init__ 0 (loop_rep 1 0) (loop_rep 2 1) = Ok H /\
    is_basis line_library (_space H) /\
    dimension line_library H = 1 /\
    is_ValueError (gens line_library H) = true.
Proof.
  eexists. split; [reflexivity|].
  assert (Hb : is_basis line_library
                 (_space (match __init__ 0 (loop_rep 1 0) (loop_rep 2 1) with
                          | Ok H => H
                          | Raise _ => sample_space
                          end))).
  { apply line_library_basis; [reflexivity|].
    intros c. destruct c; reflexivity. }
  split; [exact Hb|]. split; [reflexivity|].
  exact (proj2 (loop_gens_raises line_library _ eq_refl Hb)).
Defined.

(** ** The vector of a dictionary of vertex maps *)

Lemma nth_flat_map_rows {A} (g : nat -> nat -> A) (c r a i k : nat) (dflt : A)
    (rest : list A) :
  i < r -> k < c ->
  nth (i * c + k)
      (flat_map (fun i => map (g i) (seq 0 c)) (seq a r) ++ rest) dflt
  = g (a + i) k.
Proof.
  revert a i. induction r as [|r IH]; intros a i Hi Hk; [lia|].
  simpl. rewrite <- app_assoc. destruct i as [|i].
  - simpl. rewrite app_nth1 by (rewrite length_map, length_seq; lia).
    rewrite (nth_indep _ dflt (g a 0)) by (rewrite length_map, length_seq; lia).
    rewrite (map_nth (g a)), seq_nth by lia. f_equal; lia.
  - rewrite app_nth2 by (rewrite length_map, length_seq; simpl; lia).
    rewrite length_map, length_seq.
    replace (S i * c + k - c) with (i * c + k) by (simpl; lia).
    rewrite IH by lia. f_equal. lia.
Qed.

Lemma length_flatten {K : RingOps} (m : Matrix K) :
  length (flatten m) = nrows m * ncols m.
Proof.
  unfold flatten. rewrite length_flat_map_map, !length_range_0. reflexivity.
Qed.

Lemma vget_flatten {K : RingOps} (m : Matrix K) i k rest :
  i < nrows m -> k < ncols m ->
  vget (flatten m ++ rest) (i * ncols m + k) = entry m i k.
Proof.
  intros Hi Hk. unfold vget, flatten. rewrite !range_0.
  apply (nth_flat_map_rows (fun i j => entry m i j)); assumption.
Qed.

Lemma vget_app_r {K : RingOps} (l1 l2 : list K) n :
  vget (l1 ++ l2) (length l1 + n) = vget l2 n.
Proof.
  unfold vget. rewrite app_nth2 by lia. f_equal. lia.
Qed.

Lemma dict_vector_length {K : RingOps} (d c : QuiverRep K) maps verts vec :
  dict_vector d c maps verts = Ok vec ->
  length vec = total_dim d c verts.
Proof.
  unfold total_dim. revert vec.
  induction verts as [|x verts IH]; intros vec Hvec; simpl in Hvec.
  - injection Hvec as <-. reflexivity.
  - apply bind_Ok in Hvec as (rest & Hrest & Hvec).
    specialize (IH rest Hrest). simpl.
    destruct (maps !! x) as [m|].
    + destruct (decide _) as [[Hr Hc]|]; [|discriminate].
      injection Hvec as <-.
      rewrite length_app, length_flatten, Hr, Hc, IH. reflexivity.
    + injection Hvec as <-.
      rewrite length_app, length_replicate, IH. reflexivity.
Qed.

(** The matrix read back from the vector is the matrix of the dictionary. *)
Lemma dict_vector_entry {K : RingOps} (d c : QuiverRep K) maps verts vec
    v m i k :
  dict_vector d c maps verts = Ok vec ->
  v ∈ verts -> maps !! v = Some m ->
  i < dim d v -> k < dim c v ->
  vget vec (var_offset d c verts v + i * dim c v + k) = entry m i k.
Proof.
  revert vec. induction verts as [|x verts IH];
    intros vec Hvec Hin Hm Hi Hk; [inversion Hin|].
  simpl in Hvec. apply bind_Ok in Hvec as (rest & Hrest & Hvec).
  simpl. case_decide as Hxv.
  - subst x. rewrite Hm in Hvec.
    destruct (decide _) as [[Hr Hc]|]; [|discriminate].
    injection Hvec as <-. simpl. rewrite <- Hc.
    apply vget_flatten; lia.
  - apply elem_of_cons in Hin as [->|Hin]; [congruence|].
    specialize (IH rest Hrest Hin Hm Hi Hk).
    destruct (maps !! x) as [mx|].
    + destruct (decide _) as [[Hr Hc]|]; [|discriminate].
      injection Hvec as <-.
      rewrite <- Hr, <- Hc, <- length_flatten, <- !Nat.add_assoc.
      rewrite vget_app_r, Nat.add_assoc. exact IH.
    + injection Hvec as <-.
      replace (dim d x * dim c x + var_offset d c verts v + i * dim c v + k)
        with (length (replicate (dim d x * dim c x) (r0 K))
              + (var_offset d c verts v + i * dim c v + k))
        by (rewrite length_replicate; lia).
      rewrite vget_app_r. exact IH.
Qed.

(** ** The identity map *)

Section IdentityMap.
Context {K : RingOps}.
Hypothesis Kring : ring_laws K.
Hypothesis Keqb : eqb_correct K.

Add Ring Kring_identity : (Kring : ring_theory (r0 K) (r1 K) (radd K) (rmul K)
                                     (rsub K) (ropp K) eq).

Lemma matrix_eq_refl (A : Matrix K) : matrix_eq A A = true.
Proof using Keqb.
  unfold matrix_eq. rewrite !Nat.eqb_refl. simpl.
  apply forallb_forall. intros i _. apply forallb_forall. intros j _.
  apply Keqb. reflexivity.
Qed.

Lemma rep_eq_refl (d : QuiverRep K) : rep_eq d d = true.
Proof using Keqb.
  unfold rep_eq, quiver_eq, ring_eq.
  rewrite !bool_decide_eq_true_2 by (split; reflexivity || reflexivity).
  simpl. apply andb_true_iff. split.
  - apply forallb_forall. intros v _. apply Nat.eqb_refl.
  - apply forallb_forall. intros e _. apply matrix_eq_refl.
Qed.

Lemma rep_eq_true (d c : QuiverRep K) :
  rep_eq d c = true ->
  quiver_eq (rep_quiver d) (rep_quiver c) = true /\
  ring_eq (rep_base_ring d) (rep_base_ring c) = true /\
  (forall v, v ∈ vertices (rep_quiver d) -> dim d v = dim c v) /\
  (forall e, e ∈ edges (rep_quiver d) ->
     nrows (rep_maps d e) = nrows (rep_maps c e) /\
     ncols (rep_maps d e) = ncols (rep_maps c e) /\
     forall i j, i < nrows (rep_maps d e) -> j < ncols (rep_maps d e) ->
       entry (rep_maps d e) i j = entry (rep_maps c e) i j).
Proof using Keqb.
  unfold rep_eq. rewrite !andb_true_iff. intros [[[Hq Hr] Hv] He].
  rewrite forallb_forall in Hv, He.
  split; [assumption|]. split; [assumption|]. split.
  - intros v Hin. apply Nat.eqb_eq, Hv, list_elem_of_In, Hin.
  - intros e Hin. specialize (He e ltac:(apply list_elem_of_In; assumption)).
    unfold matrix_eq in He. rewrite !andb_true_iff in He.
    destruct He as [[Hn Hc] Hent]. apply Nat.eqb_eq in Hn, Hc.
    split; [assumption|]. split; [assumption|]. intros i j Hi Hj.
    rewrite forallb_forall in Hent.
    specialize (Hent i ltac:(rewrite range_0; apply in_seq; lia)).
    rewrite forallb_forall in Hent. apply Keqb, Hent.
    rewrite range_0. apply in_seq. lia.
Qed.

(** The dictionary [_identity] builds. *)
Lemma identity_dict_lookup (d : QuiverRep K) verts v :
  v ∈ verts ->
  (list_to_map (map (fun v => (v, Matrix_one K (dim d v))) verts)
     : gmap nat (Matrix K)) !! v
  = Some (Matrix_one K (dim d v)).
Proof.
  intros Hin. apply elem_of_list_to_map_1'.
  - intros y Hy. apply list_elem_of_In, in_map_iff in Hy as (v' & [= <- <-] & _).
    reflexivity.
  - apply list_elem_of_In, in_map_iff. exists v.
    split; [reflexivity | apply list_elem_of_In; assumption].
Qed.

Lemma dict_vector_Ok (d c : QuiverRep K) (maps : gmap nat (Matrix K)) verts :
  (forall v, v ∈ verts ->
     exists m, maps !! v = Some m /\ nrows m = dim d v /\ ncols m = dim c v) ->
  exists vec, dict_vector d c maps verts = Ok vec.
Proof.
  induction verts as [|x verts IH]; intros Hall; simpl; [eauto|].
  destruct IH as [rest ->]; [intros v Hv; apply Hall; right; assumption|].
  cbn [bind]. destruct (Hall x ltac:(left)) as (m & -> & Hr & Hc).
  destruct (decide _) as [_|Hbad]; [eauto | tauto].
Qed.

(** Between equal representations the identity matrices commute with the
    edge maps, so [_identity] returns a homomorphism. *)
Lemma identity_is_homomorphism self (d c : QuiverRep K) H :
  quiver_wf (rep_quiver d) -> rep_wf d -> rep_wf c ->
  rep_eq d c = true ->
  __init__ self d c = Ok H ->
  exists h, _identity H = Ok h /\
    hom_quiver h = rep_quiver d /\ hom_domain h = d /\ hom_codomain h = c /\
    length (_vector h) = total_dim d c (vertices (rep_quiver d)) /\
    commutes d c (_vector h) = true.
Proof using Kring Keqb.
  intros Hq Hd Hc Heq Hinit.
  apply init_Ok_inv in Hinit as (Hsame & _ & st & _ & ->).
  destruct (rep_eq_true d c Heq) as (_ & _ & Hdims & Hmaps).
  unfold _identity. cbn [_domain _codomain _quiver].
  set (maps := list_to_map _ : gmap nat (Matrix K)).
  destruct (dict_vector_Ok d c maps (vertices (rep_quiver d))) as [vec Hvec].
  { intros v Hv. exists (Matrix_one K (dim d v)).
    split; [apply identity_dict_lookup; assumption|].
    simpl. split; [reflexivity | apply Hdims; assumption]. }
  assert (Hcomm : commutes d c vec = true).
  { unfold commutes. apply forallb_forall. intros e He.
    apply list_elem_of_In in He.
    destruct (wf_shapes d c Hq Hd Hc Hsame e He)
      as (HXr & HXc & HYr & HYc & Hv0 & Hv1).
    destruct (Hmaps e He) as (Hn & Hm & Hent).
    pose proof (Hdims _ Hv0) as Hd0. pose proof (Hdims _ Hv1) as Hd1.
    unfold edge_commutes. apply forallb_forall. intros i Hi.
    apply forallb_forall. intros j Hj.
    rewrite range_0 in Hi, Hj. apply in_seq in Hi, Hj.
    apply Keqb. unfold mat_mul_entry. cbn [ncols get_matrix entry].
    rewrite (rsum_single Kring _ _ i).
    - rewrite (rsum_single Kring _ _ j).
      + rewrite (dict_vector_entry d c maps _ vec (e0 e)
                   (Matrix_one K (dim d (e0 e))) i i Hvec Hv0);
          [|apply identity_dict_lookup; assumption|lia|lia].
        rewrite (dict_vector_entry d c maps _ vec (e1 e)
                   (Matrix_one K (dim d (e1 e))) j j Hvec Hv1);
          [|apply identity_dict_lookup; assumption|lia|lia].
        simpl. rewrite !Nat.eqb_refl.
        rewrite <- (Hent i j) by lia. ring.
      + lia.
      + intros k Hk Hkj.
        rewrite (dict_vector_entry d c maps _ vec (e1 e)
                   (Matrix_one K (dim d (e1 e))) k j Hvec Hv1);
          [|apply identity_dict_lookup; assumption|lia|lia].
        simpl. destruct (Nat.eqb_spec k j); [lia|]. ring.
    - lia.
    - intros k Hk Hki.
      rewrite (dict_vector_entry d c maps _ vec (e0 e)
                 (Matrix_one K (dim d (e0 e))) i k Hvec Hv0);
        [|apply identity_dict_lookup; assumption|lia|lia].
      simpl. destruct (Nat.eqb_spec i k); [lia|]. ring. }
  unfold QuiverRepHom. rewrite Hvec. cbn [bind]. rewrite Hcomm.
  eexists. split; [reflexivity|]. simpl.
  repeat split; try assumption.
  eapply dict_vector_length. exact Hvec.
Qed.
End IdentityMap.

(** Between representations with equal data over a quiver without loops the
    identity map is an element of the hom space. *)
Lemma identity_map_in_space {K : RingOps} self (d c : QuiverRep K) H :
  ring_laws K -> eqb_correct K ->
  quiver_wf (rep_quiver d) -> rep_wf d -> rep_wf c ->
  loop_free (rep_quiver d) -> rep_eq d c = true ->
  __init__ self d c = Ok H ->
  exists h, _identity H = Ok h /\
    vec_in_space (_vector h) (_space H) = true /\
    __contains__ H (ObjHom h) = true.
Proof.
  intros Kring Keqb Hq Hd Hc Hloop Heq Hinit.
  destruct (identity_is_homomorphism Kring Keqb self d c H Hq Hd Hc Heq Hinit)
    as (h & Hh & Hhq & Hhd & Hhc & Hlen & Hcomm).
  exists h. split; [assumption|].
  assert (Hin : vec_in_space (_vector h) (_space H) = true).
  { apply (kernel_is_hom_space_loop_free Kring Keqb self d c H Hq Hd Hc
             Hloop Hinit). split; assumption. }
  split; [assumption|].
  rewrite (contains_own self d c H h Hinit Hhq Hhd Hhc). exact Hin.
Qed.

(** With domain and codomain the same representation of a quiver without
    loops, the identity map is an element of the hom space. *)
Lemma identity_in_space_loop_free {K : RingOps} self (d : QuiverRep K) H :
  ring_laws K -> eqb_correct K ->
  quiver_wf (rep_quiver d) -> rep_wf d -> loop_free (rep_quiver d) ->
  __init__ self d d = Ok H ->
  exists h, _identity H = Ok h /\
    vec_in_space (_vector h) (_space H) = true /\
    __contains__ H (ObjHom h) = true.
Proof.
  intros Kring Keqb Hq Hd Hloop Hinit.
  exact (identity_map_in_space self d d H Kring Keqb Hq Hd Hd Hloop
           (rep_eq_refl Keqb d) Hinit).
Qed.




(** ** Generators and coordinates on a quiver without loops *)

Lemma comprehension_Ok {A B} (f : A -> Result B) (g : A -> B) xs :
  (forall x, x ∈ xs -> f x = Ok (g x)) ->
  comprehension f xs = Ok (map g xs).
Proof.
  induction xs as [|x xs IH]; intros Hall; simpl; [reflexivity|].
  rewrite (Hall x) by left. cbn [bind].
  rewrite IH by (intros y Hy; apply Hall; right; assumption).
  reflexivity.
Qed.

Section Coordinates.
Context {K : RingOps}.
Hypothesis Kring : ring_laws K.
Hypothesis Keqb : eqb_correct K.

Add Ring Kring_coordinates :
  (Kring : ring_theory (r0 K) (r1 K) (radd K) (rmul K) (rsub K) (ropp K) eq).

Lemma rsum_sub n (a b : nat -> K) :
  rsum K n (fun k => radd K (a k) (ropp K (b k)))
  = radd K (rsum K n a) (ropp K (rsum K n b)).
Proof using Kring.
  induction n as [|n IH]; simpl; [ring|]. rewrite IH. ring.
Qed.

(** The combination with the coefficients [unit_list n i] is generator [i]. *)
Lemma lincomb_unit_list (gs : list (list K)) i g r :
  gs !! i = Some g ->
  lincomb_entry (unit_list K (length gs) i) gs r = vget g r.
Proof using Kring.
  intros Hg. unfold lincomb_entry.
  pose proof (lookup_lt_Some _ _ _ Hg) as Hi.
  rewrite (rsum_single Kring _ _ i Hi).
  - rewrite vget_unit_list. case_decide; [|lia].
    rewrite Nat.eqb_refl, (nth_lookup_Some _ _ _ _ Hg). ring.
  - intros k Hk Hki. rewrite vget_unit_list. case_decide; [|lia].
    destruct (Nat.eqb_spec k i); [lia|]. ring.
Qed.

(** On a quiver without loops [gens()] returns one homomorphism for each
    generator of the kernel, and the coordinates of the [i]-th of them are
    [1] at position [i] and [0] elsewhere. *)
Lemma gens_coordinates_loop_free (L : LinAlg K) self (d c : QuiverRep K) H :
  quiver_wf (rep_quiver d) -> rep_wf d -> rep_wf c ->
  loop_free (rep_quiver d) ->
  __init__ self d c = Ok H ->
  is_basis L (_space H) -> coordinates_correct L (_space H) ->
  exists hs, gens L H = Ok hs /\
    length hs = dimension L H /\
    forall i h, hs !! i = Some h ->
      coordinates L H h = unit_list K (dimension L H) i.
Proof using Kring Keqb.
  intros Hq Hd Hc Hloop Hinit (Hin & _ & Hind) Hcoord.
  pose proof (kernel_is_hom_space_loop_free Kring Keqb self d c H
                Hq Hd Hc Hloop Hinit) as Hker.
  assert (Hdc : _domain H = d /\ _codomain H = c).
  { apply init_Ok_inv in Hinit as (_ & _ & st & _ & ->). split; reflexivity. }
  destruct Hdc as [Hdom Hcod].
  unfold gens, dimension, coordinates. rewrite Hdom, Hcod.
  set (gs := space_gens L (_space H)) in *.
  set (wrap := fun f : list K =>
         {| hom_quiver := rep_quiver d; hom_domain := d; hom_codomain := c;
            _vector := f |}).
  exists (map wrap gs). split; [|split].
  - apply comprehension_Ok. intros g Hg.
    destruct (proj1 (Hker g) (Hin g Hg)) as [Hlen Hcomm].
    unfold QuiverRepHom. destruct (decide _) as [_|Hbad]; [|tauto].
    cbn [bind]. rewrite Hcomm. reflexivity.
  - apply length_map.
  - intros i h Hh.
    change (map wrap gs) with (wrap <$> gs) in Hh.
    rewrite list_lookup_fmap in Hh.
    destruct (gs !! i) as [g|] eqn:Hg; [|discriminate].
    injection Hh as <-. cbn [_vector].
    assert (Hgin : vec_in_space g (_space H) = true).
    { apply Hin. eapply list_elem_of_lookup_2. exact Hg. }
    destruct (Hcoord g Hgin) as [Hclen Hcs]. fold gs in Hclen, Hcs.
    set (cs := space_coordinates L (_space H) g) in *.
    set (delta := map (fun j => radd K (vget cs j)
                                  (ropp K (vget (unit_list K (length gs) i) j)))
                      (seq 0 (length gs))).
    assert (Hdelta : forall j, j < length gs ->
              vget delta j = radd K (vget cs j)
                               (ropp K (vget (unit_list K (length gs) i) j))).
    { intros j Hj. unfold vget at 1, delta.
      rewrite nth_lookup, lookup_tabulate. case_decide; [reflexivity | lia]. }
    assert (Hzero : forall j, j < length delta -> vget delta j = r0 K).
    { apply Hind. fold gs. split.
      - unfold delta. rewrite length_map, length_seq. reflexivity.
      - intros r Hr. rewrite vget_replicate_0. unfold lincomb_entry.
        rewrite (rsum_ext (length gs) _
          (fun j => radd K (rmul K (vget cs j) (vget (nth j gs []) r))
             (ropp K (rmul K (vget (unit_list K (length gs) i) j)
                             (vget (nth j gs []) r))))).
        + rewrite rsum_sub.
          change (rsum K (length gs)
                    (fun j => rmul K (vget cs j) (vget (nth j gs []) r)))
            with (lincomb_entry cs gs r).
          change (rsum K (length gs)
                    (fun j => rmul K (vget (unit_list K (length gs) i) j)
                                (vget (nth j gs []) r)))
            with (lincomb_entry (unit_list K (length gs) i) gs r).
          rewrite <- (Hcs r Hr), (lincomb_unit_list gs i g r Hg). ring.
        + intros j Hj. rewrite (Hdelta j Hj). ring. }
    apply (nth_ext _ _ (r0 K) (r0 K)).
    + rewrite length_unit_list. exact Hclen.
    + intros j Hj. change (j < length cs) in Hj. rewrite Hclen in Hj.
      assert (Hj' : j < length delta)
        by (unfold delta; rewrite length_map, length_seq; exact Hj).
      specialize (Hzero j Hj'). rewrite (Hdelta j Hj) in Hzero.
      change (vget cs j = vget (unit_list K (length gs) i) j).
      apply (sub_zero_iff Kring). exact Hzero.
Qed.
End Coordinates.

(** ** The lemmas on loop-free quivers at the sample representations *)

Lemma plane_library_basis :
  is_basis plane_library (_space sample_space)
  /\ coordinates_correct plane_library (_space sample_space).
Proof.
  assert (Hshape : forall v : list ZRing,
            vec_in_space v (_space sample_space) = true ->
            exists a b, v = [a; b]).
  { intros v Hv. unfold vec_in_space in Hv.
    apply andb_true_iff in Hv as [Hlen _]. apply Nat.eqb_eq in Hlen.
    simpl in Hlen. destruct v as [|a [|b [|? ?]]]; try discriminate. eauto. }
  assert (Hself : forall a b : Z,
            is_lincomb (_space sample_space) [a; b] unit_vectors_2 [a; b]).
  { intros a b. split; [reflexivity|]. intros r Hr. simpl in Hr.
    unfold lincomb_entry, vget.
    destruct r as [|[|r]]; simpl; lia. }
  split; [split; [|split]|].
  - intros g Hg. simpl in Hg.
    repeat (apply elem_of_cons in Hg as [->|Hg]); try (inversion Hg; fail);
      reflexivity.
  - intros v Hv. destruct (Hshape v Hv) as (a & b & ->).
    exists [a; b]. apply Hself.
  - intros cs [Hlen Hcs] i Hi. simpl in Hlen.
    destruct cs as [|a [|b [|? ?]]]; try discriminate.
    pose proof (Hcs 0 ltac:(simpl; lia)) as H0.
    pose proof (Hcs 1 ltac:(simpl; lia)) as H1.
    unfold lincomb_entry, vget in H0, H1. simpl in H0, H1.
    unfold vget. destruct i as [|[|i]]; simpl in *; lia.
  - intros v Hv. destruct (Hshape v Hv) as (a & b & ->). apply Hself.
Qed.

Example sample_kernel_is_hom_space (v : list ZRing) :
  vec_in_space v (_space sample_space) = true
  <-> length v = 2
      /\ commutes (simple_2 1 kronecker ZZ) (projective_1 2 kronecker ZZ) v
         = true.
Proof.
  exact (kernel_is_hom_space_loop_free ZRing_laws ZRing_eqb 7
           (simple_2 1 kronecker ZZ) (projective_1 2 kronecker ZZ) sample_space
           kronecker_wf (simple_2_wf 1 ZZ) (projective_1_wf 2 ZZ)
           kronecker_loop_free sample_space_init v).
Qed.

Example sample_gens_coordinates :
  exists hs, gens plane_library sample_space = Ok hs /\
    length hs = 2 /\
    forall i h, hs !! i = Some h ->
      coordinates plane_library sample_space h = unit_list ZRing 2 i.
Proof.
  exact (gens_coordinates_loop_free ZRing_laws ZRing_eqb plane_library 7
           (simple_2 1 kronecker ZZ) (projective_1 2 kronecker ZZ) sample_space
           kronecker_wf (simple_2_wf 1 ZZ) (projective_1_wf 2 ZZ)
           kronecker_loop_free sample_space_init
           (proj1 plane_library_basis) (proj2 plane_library_basis)).
Qed.

Example sample_identity_in_space :
  exists H h,
    __init__ 7 (projective_1 2 kronecker ZZ) (projective_1 2 kronecker ZZ)
    = Ok H /\
    _identity H = Ok h /\ __contains__ H (ObjHom h) = true.
Proof.
  eexists.
  destruct (identity_in_space_loop_free 7 (projective_1 2 kronecker ZZ) _
              ZRing_laws ZRing_eqb kronecker_wf (projective_1_wf 2 ZZ)
              kronecker_loop_free eq_refl) as (h & Hh & _ & Hin).
  exists h. split; [reflexivity|]. split; assumption.
Qed.

(* ================================================================== *)
(** * Further properties of the hom space *)

(** ** The kernel on quivers without loops *)

Lemma commutes_iff {K : RingOps} (d c : QuiverRep K) (v : list K) :
  eqb_correct K ->
  commutes d c v = true <->
  forall e i j, e ∈ edges (rep_quiver d) ->
    i < nrows (rep_maps d e) -> j < ncols (rep_maps c e) ->
    mat_mul_entry (get_matrix d c v (e0 e)) (rep_maps c e) i j
    = mat_mul_entry (rep_maps d e) (get_matrix d c v (e1 e)) i j.
Proof.
  intros Keqb. unfold commutes, edge_commutes. rewrite forallb_forall. split.
  - intros Hall e i j He Hi Hj. apply Keqb.
    specialize (Hall e ltac:(apply list_elem_of_In; assumption)).
    rewrite forallb_forall in Hall.
    specialize (Hall i ltac:(rewrite range_0; apply in_seq; lia)).
    rewrite forallb_forall in Hall. apply Hall.
    rewrite range_0. apply in_seq. lia.
  - intros Hall e He. apply list_elem_of_In in He.
    apply forallb_forall. intros i Hi. apply forallb_forall. intros j Hj.
    rewrite range_0 in Hi, Hj. apply in_seq in Hi, Hj.
    apply Keqb, Hall; [assumption | lia | lia].
Qed.

(** X1: for well-formed representations over a quiver without loops, a
    vector belongs to the space [__init__] stores exactly when it has one
    entry per variable and the matrices [A] at the source and [B] at the
    target it assigns to the ends of every edge satisfy [A*Y = X*B], entry by
    entry. *)
Theorem hom_space_of_loop_free_quiver {K : RingOps} self (d c : QuiverRep K)
    H :
  ring_laws K -> eqb_correct K ->
  quiver_wf (rep_quiver d) -> rep_wf d -> rep_wf c ->
  loop_free (rep_quiver d) ->
  __init__ self d c = Ok H ->
  forall v,
    vec_in_space v (_space H) = true <->
    length v = total_dim d c (vertices (rep_quiver d)) /\
    forall e i j, e ∈ edges (rep_quiver d) ->
      i < nrows (rep_maps d e) -> j < ncols (rep_maps c e) ->
      mat_mul_entry (get_matrix d c v (e0 e)) (rep_maps c e) i j
      = mat_mul_entry (rep_maps d e) (get_matrix d c v (e1 e)) i j.
Proof.
  intros Kring Keqb Hq Hd Hc Hloop Hinit v.
  rewrite <- (commutes_iff d c v Keqb).
  exact (kernel_is_hom_space_loop_free Kring Keqb self d c H Hq Hd Hc Hloop
           Hinit v).
Qed.

(** ** The bookkeeping list [varstart] *)

(** X2: for pairwise distinct vertices the two loops that fill [varstart]
    raise nothing and leave a list of [len(verts) + 1] entries that starts
    with [0]; its entry at the position of a vertex is the number of the
    first variable of that vertex, the next entry is larger by
    [dim(M_v) * dim(N_v)], and the last entry, the number of rows of the
    coefficient matrix, is the number of all variables. *)
Theorem varstart_offsets {K} (d c : QuiverRep K) (verts : list Vertex) :
  NoDup verts ->
  exists varstart0 varstart,
    varstart_dims d c verts (replicate (length verts + 1) 0) = Ok varstart0 /\
    varstart_cascade varstart0 = Ok varstart /\
    length varstart = length verts + 1 /\
    getitem varstart 0 = Ok 0 /\
    (forall i v, verts !! i = Some v ->
       index v verts = Ok i /\
       getitem varstart i = Ok (var_offset d c verts v) /\
       getitem varstart (i + 1)
       = Ok (var_offset d c verts v + dim d v * dim c v)) /\
    getitem varstart (length varstart - 1) = Ok (total_dim d c verts).
Proof.
  intros Hnd. exists (0 :: vertex_dims d c verts).
  exists (prefix_sums (vertex_dims d c verts)).
  assert (Hlen : length (vertex_dims d c verts) = length verts)
    by apply length_map.
  split; [apply varstart_dims_Ok; assumption|].
  split; [apply varstart_cascade_Ok|].
  split; [rewrite length_prefix_sums, Hlen; lia|].
  split; [unfold getitem; rewrite lookup_prefix_sums by lia; reflexivity|].
  split.
  - intros i v Hv. pose proof (lookup_lt_Some _ _ _ Hv) as Hi.
    pose proof (index_lookup_NoDup v verts i Hnd Hv) as Hidx.
    split; [assumption|]. unfold getitem.
    rewrite !lookup_prefix_sums by lia.
    rewrite <- (var_offset_index d c verts v i Hidx).
    split; [reflexivity|].
    replace (i + 1) with (S i) by lia.
    rewrite (prefix_sum_S _ i (dim d v * dim c v)); [reflexivity|].
    unfold vertex_dims.
    change (map ?f verts) with (f <$> verts).
    rewrite list_lookup_fmap, Hv. reflexivity.
  - rewrite length_prefix_sums. unfold getitem.
    replace (S (length (vertex_dims d c verts)) - 1)
      with (length (vertex_dims d c verts)) by lia.
    rewrite lookup_prefix_sums by lia. rewrite prefix_sum_all. reflexivity.
Qed.

Lemma varstart_offsets_witness :
  NoDup [1; 2] /\
  exists varstart,
    varstart_cascade [0; 1; 4] = Ok varstart /\
    getitem varstart 2 = Ok 5.
Proof.
  split; [exact (proj1 kronecker_wf)|].
  destruct (varstart_offsets (projective_1 2 kronecker ZZ)
              (projective_1 2 kronecker ZZ) [1; 2] (proj1 kronecker_wf))
    as (vs0 & vs & Hvs0 & Hvs & _ & _ & _ & Hlast).
  injection Hvs0 as <-. exists vs. split; [exact Hvs|].
  assert (Hl : length vs = 3).
  { vm_compute in Hvs. injection Hvs as <-. reflexivity. }
  rewrite Hl in Hlast. exact Hlast.
Defined.

(** ** A quiver without edges *)

(** X3: over a quiver that has no edge there is no equation: the constructor
    succeeds for any two representations over equal quivers and base rings,
    the space it stores is the whole ambient space, whose vectors are the
    lists with one entry per variable, and every vector commutes. *)
Theorem hom_space_without_edges {K : RingOps} self (d c : QuiverRep K) :
  NoDup (vertices (rep_quiver d)) ->
  edges (rep_quiver d) = [] ->
  quiver_eq (rep_quiver d) (rep_quiver c) = true ->
  ring_eq (rep_base_ring c) (rep_base_ring d) = true ->
  exists H,
    __init__ self d c = Ok H /\
    ncols (space_matrix (_space H)) = 0 /\
    forall v,
      commutes d c v = true /\
      (vec_in_space v (_space H) = true
       <-> length v = total_dim d c (vertices (rep_quiver d))).
Proof.
  intros Hnd He Hsame Hring. unfold __init__. rewrite Hsame, Hring.
  cbn [negb]. rewrite (coefficient_matrix_unfold d c Hnd), He.
  cbn [for_each bind fst]. eexists. split; [reflexivity|].
  split; [reflexivity|]. intros v. split.
  - unfold commutes. rewrite He. reflexivity.
  - unfold vec_in_space. cbn. rewrite andb_true_r. apply Nat.eqb_eq.
Qed.

Lemma hom_space_of_loop_free_quiver_witness :
  ring_laws ZRing /\ eqb_correct ZRing /\ quiver_wf kronecker /\
  rep_wf (projective_1 2 kronecker ZZ) /\ loop_free kronecker /\
  exists H,
    __init__ 7 (projective_1 2 kronecker ZZ) (projective_1 2 kronecker ZZ)
    = Ok H /\
    vec_in_space identity_vector (_space H) = true /\
    length identity_vector = 5.
Proof.
  split; [exact ZRing_laws|]. split; [exact ZRing_eqb|].
  split; [exact kronecker_wf|]. split; [exact (projective_1_wf 2 ZZ)|].
  split; [exact kronecker_loop_free|].
  eexists. split; [reflexivity|]. split; [reflexivity|].
  exact (proj1 (proj1 (hom_space_of_loop_free_quiver 7
           (projective_1 2 kronecker ZZ) (projective_1 2 kronecker ZZ) _
           ZRing_laws ZRing_eqb kronecker_wf (projective_1_wf 2 ZZ)
           (projective_1_wf 2 ZZ) kronecker_loop_free eq_refl
           identity_vector) eq_refl)).
Defined.

Lemma hom_space_without_edges_witness :
  NoDup (vertices points_quiver) /\
  exists H,
    __init__ 7 (points_rep 1 2 1) (points_rep 2 3 1) = Ok H /\
    vec_in_space (replicate 7 1%Z : list ZRing) (_space H) = true.
Proof.
  assert (Hnd : NoDup (vertices points_quiver)).
  { apply NoDup_ListNoDup. repeat constructor; simpl; intuition lia. }
  split; [exact Hnd|].
  destruct (hom_space_without_edges 7 (points_rep 1 2 1) (points_rep 2 3 1)
              Hnd eq_refl eq_refl eq_refl) as (H & HH & _ & Hv).
  exists H. split; [exact HH|].
  apply (proj2 (Hv (replicate 7 1%Z))). reflexivity.
Defined.

(** ** Elements the hom space makes *)

Lemma init_space_shape {K : RingOps} self (d c : QuiverRep K) H :
  quiver_wf (rep_quiver d) -> rep_wf d -> rep_wf c ->
  __init__ self d c = Ok H ->
  nrows (space_matrix (_space H)) = total_dim d c (vertices (rep_quiver d)) /\
  ncols (space_matrix (_space H))
  = sum_list (edge_dims d c (edges (rep_quiver d))).
Proof.
  intros Hq Hd Hc Hinit.
  apply init_Ok_inv in Hinit as (Hsame & _ & st & Hst & ->).
  rewrite (coefficient_matrix_Ok d c Hq Hd Hc Hsame) in Hst.
  injection Hst as <-. cbn [_space kernel space_matrix].
  destruct (fill_pure_shape d c (vertices (rep_quiver d)) (equations d c)
              (Matrix_zero K
                 (sum_list (vertex_dims d c (vertices (rep_quiver d))))
                 (sum_list (edge_dims d c (edges (rep_quiver d)))), 0))
    as [-> ->].
  split; reflexivity.
Qed.

Section Elements.
Context {K : RingOps}.
Hypothesis Kring : ring_laws K.
Hypothesis Keqb : eqb_correct K.

Add Ring Kring_elements :
  (Kring : ring_theory (r0 K) (r1 K) (radd K) (rmul K) (rsub K) (ropp K) eq).

Lemma vec_in_space_zero (M : Matrix K) :
  vec_in_space (replicate (nrows M) (r0 K)) (kernel M) = true.
Proof using Kring Keqb.
  unfold vec_in_space. cbn [kernel space_matrix].
  rewrite length_replicate, Nat.eqb_refl. cbn [andb].
  apply forallb_forall. intros c _. apply Keqb. unfold dot.
  apply (rsum_zero Kring). intros r _. rewrite vget_replicate_0. ring.
Qed.

Lemma QuiverRepHom_Ok_vector (d c : QuiverRep K) data h :
  QuiverRepHom d c data = Ok h ->
  hom_quiver h = rep_quiver d /\ hom_domain h = d /\ hom_codomain h = c /\
  length (_vector h) = total_dim d c (vertices (rep_quiver d)) /\
  commutes d c (_vector h) = true.
Proof.
  unfold QuiverRepHom. intros Hh. apply bind_Ok in Hh as (vec & Hvec & Hh).
  destruct (commutes d c vec) eqn:Hcomm; [|discriminate].
  injection Hh as <-. cbn. repeat split; try assumption.
  destruct data as [| |maps|v]; try discriminate.
  - eapply dict_vector_length. exact Hvec.
  - destruct (decide _) as [Hlen|]; [|discriminate].
    injection Hvec as <-. exact Hlen.
Qed.

(** X4: whatever the quiver, loops included, the zero homomorphism that the
    call [H()] returns is an element of the hom space: [H() in H] is
    [True]. *)
Theorem zero_hom_contained self (d c : QuiverRep K) H :
  quiver_wf (rep_quiver d) -> rep_wf d -> rep_wf c ->
  __init__ self d c = Ok H ->
  exists h, call_no_argument H = Ok h /\
    (forall r, vget (_vector h) r = r0 K) /\
    __contains__ H (ObjHom h) = true.
Proof using Kring Keqb.
  intros Hq Hd Hc Hinit. exists (zero_hom d c).
  pose proof (init_space_shape self d c H Hq Hd Hc Hinit) as [Hrows _].
  pose proof Hinit as Hinit'.
  apply init_Ok_inv in Hinit' as (_ & _ & st & _ & HH).
  split; [|split].
  - rewrite HH. unfold call_no_argument, _element_constructor_.
    cbn [data_is_None orb _domain _codomain]. unfold QuiverRepHom.
    rewrite dict_vector_empty. cbn [bind].
    rewrite (commutes_zero Kring Keqb). reflexivity.
  - intros r. apply vget_replicate_0.
  - rewrite (contains_own self d c H (zero_hom d c) Hinit) by reflexivity.
    cbn [zero_hom _vector]. rewrite <- Hrows.
    rewrite HH. cbn [_space]. rewrite HH in Hrows.
    apply vec_in_space_zero.
Qed.

(** X5: on a quiver without loops every homomorphism the hom space itself
    makes, by a call [H(data)] or by [hom(maps)], is an element of it. *)
Theorem made_elements_contained self (d c : QuiverRep K) H h :
  quiver_wf (rep_quiver d) -> rep_wf d -> rep_wf c ->
  loop_free (rep_quiver d) ->
  __init__ self d c = Ok H ->
  (exists data, _element_constructor_ H data = Ok h) \/
  (exists maps, hom H maps = Ok h) ->
  __contains__ H (ObjHom h) = true.
Proof using Kring Keqb.
  intros Hq Hd Hc Hloop Hinit Hmade.
  assert (Hdc : _domain H = d /\ _codomain H = c).
  { pose proof Hinit as Hinit'.
    apply init_Ok_inv in Hinit' as (_ & _ & st & _ & ->).
    split; reflexivity. }
  destruct Hdc as [Hdom Hcod].
  assert (Hh : exists data, QuiverRepHom d c data = Ok h).
  { destruct Hmade as [[data Hh]|[maps Hh]].
    - unfold _element_constructor_ in Hh. rewrite Hdom, Hcod in Hh. eauto.
    - unfold hom in Hh. rewrite Hdom, Hcod in Hh. eauto. }
  destruct Hh as [data Hh].
  destruct (QuiverRepHom_Ok_vector d c data h Hh)
    as (Hhq & Hhd & Hhc & Hlen & Hcomm).
  rewrite (contains_own self d c H h Hinit Hhq Hhd Hhc).
  apply (kernel_is_hom_space_loop_free Kring Keqb self d c H Hq Hd Hc Hloop
           Hinit).
  split; assumption.
Qed.

(** X6: on a quiver without loops [an_element()] raises nothing and returns
    an element of the hom space, with the vector the free module gave,
    provided that vector is in the module. *)
Theorem an_element_contained (space_an_element : Space K -> list K) self
    (d c : QuiverRep K) H :
  quiver_wf (rep_quiver d) -> rep_wf d -> rep_wf c ->
  loop_free (rep_quiver d) ->
  __init__ self d c = Ok H ->
  vec_in_space (space_an_element (_space H)) (_space H) = true ->
  exists h, an_element space_an_element H = Ok h /\
    _vector h = space_an_element (_space H) /\
    __contains__ H (ObjHom h) = true.
Proof using Kring Keqb.
  intros Hq Hd Hc Hloop Hinit Hin.
  destruct (proj1 (kernel_is_hom_space_loop_free Kring Keqb self d c H
                     Hq Hd Hc Hloop Hinit _) Hin) as [Hlen Hcomm].
  assert (Hdc : _domain H = d /\ _codomain H = c).
  { pose proof Hinit as Hinit'.
    apply init_Ok_inv in Hinit' as (_ & _ & st & _ & ->).
    split; reflexivity. }
  destruct Hdc as [Hdom Hcod].
  unfold an_element, QuiverRepHom. rewrite Hdom, Hcod.
  destruct (decide _) as [_|Hbad]; [|tauto]. cbn [bind]. rewrite Hcomm.
  eexists. split; [reflexivity|]. split; [reflexivity|].
  rewrite (contains_own self d c H _ Hinit) by reflexivity.
  exact Hin.
Qed.
End Elements.

Lemma zero_hom_contained_witness :
  ring_laws ZRing /\ eqb_correct ZRing /\ quiver_wf loop_quiver /\
  rep_wf (loop_rep 1 1) /\
  exists H h,
    __init__ 0 (loop_rep 1 1) (loop_rep 1 1) = Ok H /\
    call_no_argument H = Ok h /\ __contains__ H (ObjHom h) = true.
Proof.
  split; [exact ZRing_laws|]. split; [exact ZRing_eqb|].
  split; [exact loop_quiver_wf|]. split; [exact (loop_rep_wf 1 1)|].
  eexists.
  destruct (zero_hom_contained ZRing_laws ZRing_eqb 0 (loop_rep 1 1)
              (loop_rep 1 1) _ loop_quiver_wf (loop_rep_wf 1 1)
              (loop_rep_wf 1 1) eq_refl) as (h & Hh & _ & Hin).
  exists h. split; [reflexivity|]. split; assumption.
Defined.

Lemma made_elements_contained_witness :
  ring_laws ZRing /\ eqb_correct ZRing /\ quiver_wf kronecker /\
  rep_wf (simple_2 1 kronecker ZZ) /\ rep_wf (projective_1 2 kronecker ZZ) /\
  loop_free kronecker /\
  __init__ 7 (simple_2 1 kronecker ZZ) (projective_1 2 kronecker ZZ)
  = Ok sample_space /\
  __contains__ sample_space
    (ObjHom (zero_hom (simple_2 1 kronecker ZZ) (projective_1 2 kronecker ZZ)))
  = true.
Proof.
  split; [exact ZRing_laws|]. split; [exact ZRing_eqb|].
  split; [exact kronecker_wf|]. split; [exact (simple_2_wf 1 ZZ)|].
  split; [exact (projective_1_wf 2 ZZ)|]. split; [exact kronecker_loop_free|].
  split; [exact sample_space_init|].
  apply (made_elements_contained ZRing_laws ZRing_eqb 7
           (simple_2 1 kronecker ZZ) (projective_1 2 kronecker ZZ)
           sample_space _ kronecker_wf (simple_2_wf 1 ZZ)
           (projective_1_wf 2 ZZ) kronecker_loop_free sample_space_init).
  left. exists DNone. reflexivity.
Defined.

Lemma an_element_contained_witness :
  ring_laws ZRing /\ eqb_correct ZRing /\ quiver_wf kronecker /\
  loop_free kronecker /\
  vec_in_space (replicate 2 1%Z : list ZRing) (_space sample_space) = true /\
  exists h,
    an_element (fun _ => replicate 2 1%Z : list ZRing) sample_space = Ok h /\
    __contains__ sample_space (ObjHom h) = true.
Proof.
  split; [exact ZRing_laws|]. split; [exact ZRing_eqb|].
  split; [exact kronecker_wf|]. split; [exact kronecker_loop_free|].
  split; [reflexivity|].
  destruct (an_element_contained ZRing_laws ZRing_eqb
              (fun _ => replicate 2 1%Z : list ZRing) 7
              (simple_2 1 kronecker ZZ) (projective_1 2 kronecker ZZ)
              sample_space kronecker_wf (simple_2_wf 1 ZZ)
              (projective_1_wf 2 ZZ) kronecker_loop_free sample_space_init
              eq_refl) as (h & Hh & _ & Hin).
  exists h. split; assumption.
Defined.

(** ** Zero spaces *)

Lemma total_dim_zero {K} (d c : QuiverRep K) verts :
  (forall v, v ∈ verts -> dim d v * dim c v = 0) ->
  total_dim d c verts = 0.
Proof.
  unfold total_dim. induction verts as [|x verts IH]; intros Hz; simpl.
  - reflexivity.
  - rewrite (Hz x) by left. rewrite IH; [reflexivity|].
    intros v Hv. apply Hz. right. assumption.
Qed.

(** X7: when at every vertex the space of the domain or the space of the
    codomain is zero, there is no variable: the coefficient matrix has no
    row (it may well have columns), and the hom space contains the empty
    vector and nothing else. *)
Theorem hom_space_of_zero_spaces {K : RingOps} self (d c : QuiverRep K) H :
  eqb_correct K ->
  quiver_wf (rep_quiver d) -> rep_wf d -> rep_wf c ->
  (forall v, v ∈ vertices (rep_quiver d) -> dim d v = 0 \/ dim c v = 0) ->
  __init__ self d c = Ok H ->
  nrows (space_matrix (_space H)) = 0 /\
  forall v, vec_in_space v (_space H) = true <-> v = [].
Proof.
  intros Keqb Hq Hd Hc Hzero Hinit.
  destruct (init_space_shape self d c H Hq Hd Hc Hinit) as [Hrows _].
  rewrite total_dim_zero in Hrows.
  2:{ intros v Hv. destruct (Hzero v Hv) as [-> | ->]; lia. }
  split; [assumption|]. intros v. unfold vec_in_space. rewrite Hrows.
  rewrite andb_true_iff, Nat.eqb_eq. split.
  - intros [Hlen _]. destruct v; [reflexivity | discriminate].
  - intros ->. split; [reflexivity|]. apply forallb_forall. intros col _.
    apply Keqb. unfold dot. rewrite Hrows. reflexivity.
Qed.

Lemma simple_1_wf id R : rep_wf (simple_1 id kronecker R).
Proof.
  intros e He. simpl in He.
  repeat (apply elem_of_cons in He as [->|He]); try (inversion He; fail);
    split; reflexivity.
Qed.

Lemma hom_space_of_zero_spaces_witness :
  eqb_correct ZRing /\ quiver_wf kronecker /\
  rep_wf (simple_1 1 kronecker ZZ) /\ rep_wf (simple_2 2 kronecker ZZ) /\
  exists H,
    __init__ 7 (simple_1 1 kronecker ZZ) (simple_2 2 kronecker ZZ) = Ok H /\
    nrows (space_matrix (_space H)) = 0 /\
    ncols (space_matrix (_space H)) = 2 /\
    vec_in_space [] (_space H) = true.
Proof.
  split; [exact ZRing_eqb|]. split; [exact kronecker_wf|].
  split; [exact (simple_1_wf 1 ZZ)|]. split; [exact (simple_2_wf 2 ZZ)|].
  assert (Hzero : forall v, v ∈ vertices kronecker ->
            dim (simple_1 1 kronecker ZZ) v = 0 \/
            dim (simple_2 2 kronecker ZZ) v = 0).
  { intros v Hv. simpl in Hv.
    repeat (apply elem_of_cons in Hv as [->|Hv]); try (inversion Hv; fail);
      [right | left]; reflexivity. }
  eexists. split; [reflexivity|].
  destruct (hom_space_of_zero_spaces 7 (simple_1 1 kronecker ZZ)
              (simple_2 2 kronecker ZZ) _ ZRing_eqb kronecker_wf
              (simple_1_wf 1 ZZ) (simple_2_wf 2 ZZ) Hzero eq_refl) as [Hr Hv].
  split; [exact Hr|]. split; [reflexivity|]. apply Hv. reflexivity.
Defined.

(** ** The identity map, again *)

(** X8: between equal well-formed representations, whatever the quiver,
    [_identity] raises nothing and returns the homomorphism whose matrix at
    every vertex is the identity matrix. *)
Theorem identity_map_matrices {K : RingOps} self (d c : QuiverRep K) H :
  ring_laws K -> eqb_correct K ->
  quiver_wf (rep_quiver d) -> rep_wf d -> rep_wf c ->
  rep_eq d c = true ->
  __init__ self d c = Ok H ->
  exists h, _identity H = Ok h /\
    hom_domain h = d /\ hom_codomain h = c /\
    forall v i k, v ∈ vertices (rep_quiver d) ->
      i < dim d v -> k < dim c v ->
      entry (get_matrix d c (_vector h) v) i k
      = if Nat.eqb i k then r1 K else r0 K.
Proof.
  intros Kring Keqb Hq Hd Hc Heq Hinit.
  destruct (identity_is_homomorphism Kring Keqb self d c H Hq Hd Hc Heq Hinit)
    as (h & Hh & _ & Hhd & Hhc & _ & _).
  exists h. split; [assumption|]. split; [assumption|].
  split; [assumption|]. intros v i k Hv Hi Hk.
  apply init_Ok_inv in Hinit as (_ & _ & st & _ & ->).
  unfold _identity, QuiverRepHom in Hh.
  cbn [_domain _codomain _quiver] in Hh.
  apply bind_Ok in Hh as (vec & Hvec & Hh).
  destruct (commutes d c vec); [|discriminate]. injection Hh as <-.
  cbn [get_matrix entry _vector].
  rewrite (dict_vector_entry d c _ _ vec v (Matrix_one K (dim d v)) i k Hvec
             Hv (identity_dict_lookup d _ v Hv) Hi Hk).
  reflexivity.
Qed.

Lemma identity_map_matrices_witness :
  ring_laws ZRing /\ eqb_correct ZRing /\ quiver_wf loop_quiver /\
  rep_wf (loop_rep 1 1) /\ rep_eq (loop_rep 1 1) (loop_rep 2 1) = true /\
  exists H h,
    __init__ 0 (loop_rep 1 1) (loop_rep 2 1) = Ok H /\
    _identity H = Ok h /\
    entry (get_matrix (loop_rep 1 1) (loop_rep 2 1) (_vector h) 1) 0 0 = 1%Z.
Proof.
  split; [exact ZRing_laws|]. split; [exact ZRing_eqb|].
  split; [exact loop_quiver_wf|]. split; [exact (loop_rep_wf 1 1)|].
  split; [reflexivity|]. eexists.
  destruct (identity_map_matrices 0 (loop_rep 1 1) (loop_rep 2 1) _
              ZRing_laws ZRing_eqb loop_quiver_wf (loop_rep_wf 1 1)
              (loop_rep_wf 2 1) eq_refl eq_refl) as (h & Hh & _ & _ & Hent).
  exists h. split; [reflexivity|]. split; [exact Hh|].
  apply (Hent 1 0 0); [left | simpl; lia | simpl; lia].
Defined.

(** X9: when domain and codomain are the same representation of a quiver
    without loops, the attribute [identity] exists and the homomorphism
    [identity()] returns is an element of the hom space. *)
Theorem identity_contained {K : RingOps} self (d : QuiverRep K) H :
  ring_laws K -> eqb_correct K ->
  quiver_wf (rep_quiver d) -> rep_wf d -> loop_free (rep_quiver d) ->
  __init__ self d d = Ok H ->
  exists f h, identity H = Ok f /\ f tt = Ok h /\
    vec_in_space (_vector h) (_space H) = true /\
    __contains__ H (ObjHom h) = true.
Proof.
  intros Kring Keqb Hq Hd Hloop Hinit.
  destruct (identity_in_space_loop_free self d H Kring Keqb Hq Hd Hloop Hinit)
    as (h & Hh & Hin & Hcont).
  exists (fun _ => _identity H), h.
  split; [|split; [exact Hh|split; assumption]].
  apply init_Ok_inv in Hinit as (_ & _ & st & _ & ->).
  unfold identity, rep_is. cbn [identity_bound]. rewrite Nat.eqb_refl.
  reflexivity.
Qed.

Lemma identity_contained_witness :
  ring_laws ZRing /\ eqb_correct ZRing /\ quiver_wf kronecker /\
  rep_wf (projective_1 2 kronecker ZZ) /\ loop_free kronecker /\
  exists H f h,
    __init__ 7 (projective_1 2 kronecker ZZ) (projective_1 2 kronecker ZZ)
    = Ok H /\
    identity H = Ok f /\ f tt = Ok h /\ __contains__ H (ObjHom h) = true.
Proof.
  split; [exact ZRing_laws|]. split; [exact ZRing_eqb|].
  split; [exact kronecker_wf|]. split; [exact (projective_1_wf 2 ZZ)|].
  split; [exact kronecker_loop_free|]. eexists.
  destruct (identity_contained 7 (projective_1 2 kronecker ZZ) _
              ZRing_laws ZRing_eqb kronecker_wf (projective_1_wf 2 ZZ)
              kronecker_loop_free eq_refl) as (f & h & Hf & Hh & _ & Hin).
  exists f, h. split; [reflexivity|]. split; [exact Hf|].
  split; [exact Hh | exact Hin].
Defined.

(** ** Generators on quivers without loops *)

Lemma comprehension_inv {A B} (f : A -> Result B) xs ys :
  comprehension f xs = Ok ys ->
  forall i y, ys !! i = Some y -> exists x, xs !! i = Some x /\ f x = Ok y.
Proof.
  revert ys. induction xs as [|x xs IH]; intros ys Hys i y Hy; simpl in Hys.
  - injection Hys as <-. destruct i; discriminate.
  - apply bind_Ok in Hys as (y0 & Hy0 & Hys).
    apply bind_Ok in Hys as (ys0 & Hys0 & [= <-]).
    destruct i as [|i]; simpl in Hy.
    + injection Hy as <-. exists x. split; [reflexivity | assumption].
    + apply (IH ys0 Hys0 i y Hy).
Qed.

(** X10: on a quiver without loops, with a linear-algebra library whose
    generators are a basis of the kernel and whose coordinates are
    coefficients, [gens()] raises nothing and returns one homomorphism for
    each generator, in their order; each of them is an element of the hom
    space, and [coordinates] of the [i]-th one is the [i]-th unit vector of
    length [dimension()]. *)
Theorem gens_are_a_coordinate_basis {K : RingOps} (L : LinAlg K) self
    (d c : QuiverRep K) H :
  ring_laws K -> eqb_correct K ->
  quiver_wf (rep_quiver d) -> rep_wf d -> rep_wf c ->
  loop_free (rep_quiver d) ->
  __init__ self d c = Ok H ->
  is_basis L (_space H) -> coordinates_correct L (_space H) ->
  exists hs, gens L H = Ok hs /\
    length hs = dimension L H /\
    forall i h, hs !! i = Some h ->
      space_gens L (_space H) !! i = Some (_vector h) /\
      __contains__ H (ObjHom h) = true /\
      coordinates L H h = unit_list K (dimension L H) i.
Proof.
  intros Kring Keqb Hq Hd Hc Hloop Hinit Hbasis Hcoord.
  destruct (gens_coordinates_loop_free Kring Keqb L self d c H Hq Hd Hc Hloop
              Hinit Hbasis Hcoord) as (hs & Hhs & Hlen & Hunit).
  exists hs. split; [assumption|]. split; [assumption|].
  intros i h Hh.
  destruct (comprehension_inv _ _ _ Hhs i h Hh) as (g & Hg & Hmk).
  assert (Hdc : _domain H = d /\ _codomain H = c).
  { pose proof Hinit as Hinit'.
    apply init_Ok_inv in Hinit' as (_ & _ & st & _ & ->).
    split; reflexivity. }
  destruct Hdc as [Hdom Hcod]. rewrite Hdom, Hcod in Hmk.
  destruct (QuiverRepHom_Ok_inv d c _ h Hmk) as (Hhq & Hhd & Hhc).
  assert (Hvec : _vector h = g).
  { unfold QuiverRepHom in Hmk. apply bind_Ok in Hmk as (vec & Hvec & Hmk).
    destruct (decide _); [|discriminate]. injection Hvec as <-.
    destruct (commutes d c g); [|discriminate]. injection Hmk as <-.
    reflexivity. }
  rewrite Hvec. split; [assumption|]. split; [|apply (Hunit i h Hh)].
  rewrite (contains_own self d c H h Hinit Hhq Hhd Hhc), Hvec.
  apply (proj1 Hbasis). apply list_elem_of_lookup. exists i. assumption.
Qed.

Lemma gens_are_a_coordinate_basis_witness :
  ring_laws ZRing /\ eqb_correct ZRing /\ quiver_wf kronecker /\
  loop_free kronecker /\
  exists H hs,
    __init__ 7 (simple_2 1 kronecker ZZ) (projective_1 2 kronecker ZZ) = Ok H /\
    gens plane_library H = Ok hs /\ length hs = 2.
Proof.
  split; [exact ZRing_laws|]. split; [exact ZRing_eqb|].
  split; [exact kronecker_wf|]. split; [exact kronecker_loop_free|].
  eexists.
  destruct (gens_are_a_coordinate_basis plane_library 7
              (simple_2 1 kronecker ZZ) (projective_1 2 kronecker ZZ) _
              ZRing_laws ZRing_eqb kronecker_wf (simple_2_wf 1 ZZ)
              (projective_1_wf 2 ZZ) kronecker_loop_free eq_refl
              (proj1 plane_library_basis) (proj2 plane_library_basis))
    as (hs & Hhs & Hlen & _).
  exists hs. split; [reflexivity|]. split; [exact Hhs | exact Hlen].
Defined.

(** ** The factory and its cache *)

(** X11: a call of the factory keeps what the cache holds: no entry is
    dropped or replaced, and every entry stays a hom space between the
    representations that the factory of representations keeps under the two
    halves of its key.  A call that raises leaves the cache as it was; a call
    that returns gives a hom space from [get_object(key[0])] to
    [get_object(key[1])], which may be other objects than the arguments of
    the call. *)
Theorem factory_keeps_cache {K : RingOps} (get : RepKey -> QuiverRep K)
    (st st1 : FactoryState) (d c : QuiverRep K) (r : Result (HomSpace K)) :
  cache_ok get st ->
  QuiverHomSpace get st d c = (r, st1) ->
  cache_ok get st1 /\
  (forall key H, cache st !! key = Some H -> cache st1 !! key = Some H) /\
  match r with
  | Ok H => _domain H = get (rep_factory_key d) /\
            _codomain H = get (rep_factory_key c) /\
            identity_bound H
            = rep_is (get (rep_factory_key d)) (get (rep_factory_key c))
  | Raise _ => st1 = st
  end.
Proof.
  intros Hok. unfold QuiverHomSpace.
  destruct (create_key d c) as [key|e] eqn:Hk.
  2:{ intros [= <- <-]. split; [assumption|]. split; [auto | reflexivity]. }
  destruct (create_key_Ok d c key Hk) as (_ & _ & _ & _ & ->).
  unfold get_object.
  destruct (cache st !! (rep_factory_key d, rep_factory_key c)) as [H0|] eqn:Hc.
  { intros [= <- <-]. split; [assumption|]. split; [auto|].
    apply (Hok _ _ Hc). }
  unfold create_object. cbn [fst snd].
  destruct (__init__ (next_id st) _ _) as [H1|e] eqn:Hinit.
  2:{ intros [= <- <-]. split; [assumption|]. split; [auto | reflexivity]. }
  intros [= <- <-]. cbn [cache].
  assert (Hnew : _domain H1 = get (rep_factory_key d) /\
                 _codomain H1 = get (rep_factory_key c) /\
                 identity_bound H1
                 = rep_is (get (rep_factory_key d)) (get (rep_factory_key c))).
  { apply init_Ok_inv in Hinit as (_ & _ & m & _ & ->). repeat split. }
  split; [|split; [|exact Hnew]].
  - intros key H Hkey. cbn [cache] in Hkey.
    apply lookup_insert_Some in Hkey as [[<- <-]|[_ Hkey]].
    + exact Hnew.
    + apply (Hok _ _ Hkey).
  - intros key H Hkey. rewrite lookup_insert_ne; [assumption|].
    intros <-. rewrite Hc in Hkey. discriminate.
Qed.

Lemma factory_keeps_cache_witness :
  cache_ok sample_get empty_factory /\
  cache_ok sample_get
    (QuiverHomSpace sample_get empty_factory (simple_2 1 kronecker ZZ)
       (projective_1 2 kronecker ZZ)).2.
Proof.
  assert (Hok : cache_ok sample_get empty_factory).
  { intros key H Hkey. cbn [empty_factory cache] in Hkey.
    rewrite lookup_empty in Hkey. discriminate. }
  split; [exact Hok|].
  apply (factory_keeps_cache sample_get empty_factory _
           (simple_2 1 kronecker ZZ) (projective_1 2 kronecker ZZ) _ Hok
           (surjective_pairing _)).
Defined.

(** ** Coercion between hom spaces *)

(** X12: [_coerce_map_from_] answers [False] for everything that is no hom
    space, and between hom spaces it is a preorder as soon as
    [has_coerce_map_from] is one on the representations: every hom space
    coerces to itself, and coercions from [H3] to [H2] and from [H2] to [H1]
    give one from [H3] to [H1]. *)
Theorem coerce_map_from_preorder {K : RingOps}
    (has_coerce_map_from : QuiverRep K -> QuiverRep K -> bool) :
  (forall a, has_coerce_map_from a a = true) ->
  (forall a b c, has_coerce_map_from a b = true ->
     has_coerce_map_from b c = true -> has_coerce_map_from a c = true) ->
  (forall H o, _coerce_map_from_ has_coerce_map_from H (OtherObject o) = false) /\
  (forall H, _coerce_map_from_ has_coerce_map_from H (OtherHomSpace H) = true) /\
  (forall H1 H2 H3,
     _coerce_map_from_ has_coerce_map_from H1 (OtherHomSpace H2) = true ->
     _coerce_map_from_ has_coerce_map_from H2 (OtherHomSpace H3) = true ->
     _coerce_map_from_ has_coerce_map_from H1 (OtherHomSpace H3) = true).
Proof.
  intros Hrefl Htrans. split; [reflexivity|]. split.
  - intros H. unfold _coerce_map_from_. rewrite !Hrefl. reflexivity.
  - intros H1 H2 H3. unfold _coerce_map_from_.
    destruct (has_coerce_map_from (_domain H2) (_domain H1)) eqn:D21;
      [|discriminate].
    destruct (has_coerce_map_from (_codomain H1) (_codomain H2)) eqn:C12;
      [|discriminate].
    destruct (has_coerce_map_from (_domain H3) (_domain H2)) eqn:D32;
      [|discriminate].
    destruct (has_coerce_map_from (_codomain H2) (_codomain H3)) eqn:C23;
      [|discriminate].
    intros _ _.
    rewrite (Htrans _ _ _ D32 D21), (Htrans _ _ _ C12 C23). reflexivity.
Qed.

Lemma coerce_map_from_preorder_witness :
  (forall a : QuiverRep ZRing, rep_is a a = true) /\
  _coerce_map_from_ rep_is sample_space (OtherHomSpace sample_space) = true.
Proof.
  assert (Hrefl : forall a : QuiverRep ZRing, rep_is a a = true).
  { intros a. apply Nat.eqb_refl. }
  split; [exact Hrefl|].
  apply (coerce_map_from_preorder rep_is Hrefl).
  intros a b c Hab Hbc. unfold rep_is in *.
  apply Nat.eqb_eq in Hab, Hbc. apply Nat.eqb_eq. congruence.
Defined.

(** ** The printed name *)

Lemma string_length_append (s t : string) :
  String.length (s +:+ t) = String.length s + String.length t.
Proof. induction s as [|a s IH]; simpl; [reflexivity | rewrite IH; reflexivity]. Qed.

Lemma string_append_inj_l (t s1 s2 : string) :
  s1 +:+ t = s2 +:+ t -> s1 = s2.
Proof.
  revert s2. induction s1 as [|a s1 IH]; intros [|b s2] Heq.
  - reflexivity.
  - apply (f_equal String.length) in Heq.
    rewrite !string_length_append in Heq. simpl in Heq. lia.
  - apply (f_equal String.length) in Heq.
    rewrite !string_length_append in Heq. simpl in Heq. lia.
  - simpl in Heq. injection Heq as -> Heq. f_equal. apply IH. assumption.
Qed.

(** X13: the printed name of a hom space tells its dimension and nothing
    else: two hom spaces print the same if and only if their dimensions are
    equal. *)
Theorem repr_determines_dimension {K : RingOps} (L : LinAlg K)
    (H1 H2 : HomSpace K) :
  _repr_ L H1 = _repr_ L H2 <-> dimension L H1 = dimension L H2.
Proof.
  unfold _repr_. split.
  - intros Heq. apply (inj (String.append "Dimension ")) in Heq.
    apply string_append_inj_l in Heq.
    apply (inj pretty) in Heq. exact Heq.
  - intros ->. reflexivity.
Qed.

(** ** The dimension between representations without common support *)

(** X14: over a ring with [1 <> 0], when at every vertex the space of the
    domain or the space of the codomain is zero, a library whose generators
    are a basis of the kernel gives the hom space the dimension [0], and
    [gens()] returns the empty list. *)
Theorem zero_spaces_dimension {K : RingOps} (L : LinAlg K) self
    (d c : QuiverRep K) H :
  r1 K <> r0 K ->
  quiver_wf (rep_quiver d) -> rep_wf d -> rep_wf c ->
  (forall v, v ∈ vertices (rep_quiver d) -> dim d v = 0 \/ dim c v = 0) ->
  __init__ self d c = Ok H ->
  is_basis L (_space H) ->
  dimension L H = 0 /\ gens L H = Ok [].
Proof.
  intros Hone Hq Hd Hc Hzero Hinit (_ & _ & Hind).
  destruct (init_space_shape self d c H Hq Hd Hc Hinit) as [Hrows _].
  rewrite total_dim_zero in Hrows.
  2:{ intros v Hv. destruct (Hzero v Hv) as [-> | ->]; lia. }
  unfold dimension, gens.
  destruct (space_gens L (_space H)) as [|g gs] eqn:Hgens.
  - split; reflexivity.
  - exfalso. apply Hone.
    apply (Hind (replicate (S (length gs)) (r1 K)) ) with (i := 0).
    + split; [rewrite length_replicate; reflexivity|].
      intros r Hr. rewrite Hrows in Hr. lia.
    + rewrite length_replicate. lia.
Qed.

Lemma zero_spaces_dimension_witness :
  r1 ZRing <> r0 ZRing /\ quiver_wf kronecker /\
  exists H,
    __init__ 7 (simple_1 1 kronecker ZZ) (simple_2 2 kronecker ZZ) = Ok H /\
    dimension {| space_gens := fun _ => [];
                 space_coordinates := fun _ _ => [] |} H = 0.
Proof.
  assert (Hone : r1 ZRing <> r0 ZRing) by discriminate.
  split; [exact Hone|]. split; [exact kronecker_wf|].
  assert (Hzero : forall v, v ∈ vertices kronecker ->
            dim (simple_1 1 kronecker ZZ) v = 0 \/
            dim (simple_2 2 kronecker ZZ) v = 0).
  { intros v Hv. simpl in Hv.
    repeat (apply elem_of_cons in Hv as [->|Hv]); try (inversion Hv; fail);
      [right | left]; reflexivity. }
  eexists. split; [reflexivity|].
  apply (zero_spaces_dimension _ 7 (simple_1 1 kronecker ZZ)
           (simple_2 2 kronecker ZZ) _ Hone kronecker_wf
           (simple_1_wf 1 ZZ) (simple_2_wf 2 ZZ) Hzero eq_refl).
  split; [|split].
  - intros g Hg. inversion Hg.
  - intros v Hv. exists []. split; [reflexivity|].
    intros r Hr. simpl in Hr. lia.
  - intros cs [Hlen _] i Hi. rewrite Hlen in Hi. simpl in Hi. lia.
Defined.
